(** * phantabular: the extension packager (package.py)

    A shallow embedding of [package.py], the script that collects a fixed
    list of directories and files of the project into [build/phantabular.xpi].

    The script is a sequence of calls into the Python runtime ([os.walk],
    [zipfile.ZipFile.write], [print]) that all act on one global archive
    handle.  It is modelled as a computation in a state-and-exception monad
    over a [world] (the archive handle, standard output and a log of the
    calls made to the operating system), reading the disk through a
    function from path strings to what the path names. *)

From Stdlib Require Import String Ascii List Bool Arith Lia.
Import ListNotations.
Open Scope string_scope.

(** ** Byte strings and the view of the disk *)

Definition bytes := list Byte.byte.

(** What a path names on disk: a regular file with its contents, or a
    directory with the entries [os.scandir] reports for it, in the order it
    reports them; the flag of an entry is the answer of [entry.is_dir()]. *)
Inductive fsobj : Type :=
| RegFile (data : bytes)
| Directory (listing : list (string * bool)).

(** [disk p = None]: no such file or directory. *)
Definition disk := string -> option fsobj.

(** ** The Python runtime: exceptions, state, sequencing *)

Inductive exn : Type :=
| FileNotFoundError (filename : string)
| NotADirectoryError (filename : string)
| FileExistsError (filename : string)
| IsADirectoryError (filename : string)
| IndexError
| ValueError (msg : string)
| RecursionError.

Inductive result (A : Type) : Type :=
| Ok (a : A)
| Raise (e : exn).
Arguments Ok {A} a.
Arguments Raise {A} e.

(** Calls that reach the operating system or the archive handle. *)
Inductive event : Type :=
| EvMkdir (path : string)
| EvOpen (path : string)
| EvScandir (top : string)
| EvWrite (filename arcname : string)
| EvClose.

(** [output_file] is the only mutable object of the script. [zip_open] is
    the handle's [fp is not None]; [zip_entries] are the members written so
    far, oldest first, each with its archive name and contents. *)
Record world : Type := mkWorld {
  zip_open : bool;
  zip_entries : list (string * bytes);
  stdout : list string;
  calls : list event
}.

Definition boot : world :=
  {| zip_open := false; zip_entries := []; stdout := []; calls := [] |}.

(** A statement: runs in a world, ends normally or by an exception, and
    leaves a world behind in both cases (an unhandled exception keeps what
    was already written). *)
Definition M (A : Type) : Type := world -> result A * world.

Definition ret {A} (a : A) : M A := fun w => (Ok a, w).

Definition raise {A} (e : exn) : M A := fun w => (Raise e, w).

Definition bind {A B} (m : M A) (k : A -> M B) : M B :=
  fun w =>
    match m w with
    | (Ok a, w') => k a w'
    | (Raise e, w') => (Raise e, w')
    end.

Notation "x <- m ;; k" := (bind m (fun x => k))
  (at level 61, m at next level, right associativity).
Notation "m ;; k" := (bind m (fun _ => k))
  (at level 61, right associativity).

Definition log (e : event) : M unit :=
  fun w => (Ok tt, {| zip_open := zip_open w; zip_entries := zip_entries w;
                      stdout := stdout w; calls := calls w ++ [e] |}).

Definition print (line : string) : M unit :=
  fun w => (Ok tt, {| zip_open := zip_open w; zip_entries := zip_entries w;
                      stdout := stdout w ++ [line]; calls := calls w |}).

(** [for x in xs: body] over a list nobody else touches. *)
Fixpoint for_each {A} (xs : list A) (body : A -> M unit) : M unit :=
  match xs with
  | [] => ret tt
  | x :: xs' => body x ;; for_each xs' body
  end.

(** [for x in lst: body] where [lst] is a list object the body can change
    in place.  Python's list iterator keeps a position [i] and looks the
    live list up again at every step; it stops once [i] is past the end.
    The body receives the element and the present contents of the list and
    returns the contents it leaves.  [steps] bounds the number of
    iterations; the initial length is exact for a body that never makes the
    list longer. *)
Fixpoint for_shared {A} (steps i : nat) (lst : list A)
    (body : A -> list A -> M (list A)) : M (list A) :=
  match steps with
  | 0 => ret lst
  | S steps' =>
      match nth_error lst i with
      | None => ret lst
      | Some x => lst' <- body x lst ;; for_shared steps' (S i) lst' body
      end
  end.

Definition for_in_shared {A} (lst : list A)
    (body : A -> list A -> M (list A)) : M (list A) :=
  for_shared (length lst) 0 lst body.

Definition dquote : string := String (ascii_of_nat 34) EmptyString.

(** The two progress lines. *)
Definition dir_line (source target : string) : string :=
  "Writing dir: " ++ dquote ++ source ++ dquote ++ " -> " ++ dquote ++ target ++ dquote.

Definition file_line (source target : string) : string :=
  "Writing file: " ++ dquote ++ source ++ dquote ++ " -> " ++ dquote ++ target ++ dquote.

(** ** Path strings and file names (POSIX) *)

Definition slash : ascii := "/"%char.

Fixpoint has_slash (s : string) : bool :=
  match s with
  | EmptyString => false
  | String c s' => Ascii.eqb c slash || has_slash s'
  end.

Fixpoint starts_with (p s : string) : bool :=
  match p with
  | EmptyString => true
  | String c p' =>
      match s with
      | EmptyString => false
      | String d s' => Ascii.eqb c d && starts_with p' s'
      end
  end.

(** [components cur s]: the non-empty slash-separated pieces of [cur ++ s],
    where [cur] is the piece being read, kept reversed. *)
Fixpoint components_from (cur : list ascii) (s : string) : list string :=
  let flush := match cur with
               | [] => []
               | _ => [string_of_list_ascii (rev cur)]
               end in
  match s with
  | EmptyString => flush
  | String c s' =>
      if Ascii.eqb c slash then (flush ++ components_from [] s')%list
      else components_from (c :: cur) s'
  end.

Definition components (s : string) : list string := components_from [] s.

(** The character no path can hold. *)
Definition nul : ascii := ascii_of_nat 0.

Fixpoint has_nul (s : string) : bool :=
  match s with
  | EmptyString => false
  | String c s' => Ascii.eqb c nul || has_nul s'
  end.

(** The name of a directory entry: not empty, without a slash or a NUL
    character, and neither of the two special entries, which [os.scandir]
    leaves out. *)
Definition file_name_ok (n : string) : bool :=
  negb (has_slash n) && negb (String.eqb n EmptyString)
  && negb (String.eqb n ".") && negb (String.eqb n "..")
  && negb (has_nul n).

(** ["/".join(comps)]. *)
Fixpoint join_path (comps : list string) : string :=
  match comps with
  | [] => EmptyString
  | [c] => c
  | c :: comps' => c ++ "/" ++ join_path comps'
  end.

(** One round of the loop of [os.path.normpath] over the pieces of a path;
    [kept] is [new_comps], last piece first, and [rooted] tells whether the
    path starts with a slash. *)
Definition norm_step (rooted : bool) (kept : list string) (comp : string)
    : list string :=
  if String.eqb comp "." then kept
  else if String.eqb comp ".." then
    match kept with
    | [] => if rooted then [] else [comp]
    | last :: kept' => if String.eqb last ".." then comp :: kept else kept'
    end
  else comp :: kept.

(** The member name [ZipInfo.from_file] makes of [arcname]:
    [os.path.normpath], then every leading slash taken off.  [None] is the
    [IndexError] of [arcname[0]] when nothing is left (a path of slashes
    and dots that starts at the root).  Paths are taken to be free of NUL
    characters, as the paths of a file system are: [os.stat] refuses a
    path with one, and the library would cut a member name there. *)
Definition zip_arcname (arcname : string) : option string :=
  let rooted := starts_with "/" arcname in
  let joined := join_path (rev (fold_left (norm_step rooted) (components arcname) [])) in
  if rooted then
    if String.eqb joined EmptyString then None else Some joined
  else
    Some (if String.eqb joined EmptyString then "." else joined).

(** A path the library leaves as it is: file names joined by single
    slashes (no empty piece, no [.] or [..], no NUL character). *)
Definition clean (s : string) : bool :=
  match components s with
  | [] => false
  | comps => forallb file_name_ok comps && String.eqb s (join_path comps)
  end.

Section Packager.

(** The disk as the run sees it, and [os.path.dirname(__file__)]. *)
Variable os : disk.
Variable self_dirname : string.

(** ** Library calls *)

(** What [os.walk] makes of a listing: the names of the directories and
    the names of everything else, in listing order.  Only file names are
    entries: [os.scandir] never reports [.] or [..], and no directory entry
    has an empty name, a slash or a NUL character in it. *)
Definition dirs_of (listing : list (string * bool)) : list string :=
  map fst (filter (fun e => snd e && file_name_ok (fst e)) listing).

Definition nondirs_of (listing : list (string * bool)) : list string :=
  map fst (filter (fun e => negb (snd e) && file_name_ok (fst e)) listing).

(** Why a path that names nothing cannot be reached: some part of it that
    should be a directory is a regular file ([ENOTDIR]), or nothing is
    there ([ENOENT]).  [blocked_from pre rest] looks at every prefix of
    [pre ++ rest] that ends before a slash of [rest]. *)
Fixpoint blocked_from (pre rest : string) : bool :=
  match rest with
  | EmptyString => false
  | String c rest' =>
      (Ascii.eqb c slash
       && match os pre with Some (RegFile _) => true | _ => false end)
      || blocked_from (pre ++ String c EmptyString) rest'
  end.

Definition blocked (path : string) : bool := blocked_from EmptyString path.

(** The exception of [os.stat] on a path that names nothing. *)
Definition stat_error (path : string) : exn :=
  if blocked path then NotADirectoryError path else FileNotFoundError path.

(** [os.walk(top)] driven by the loop that consumes it (top-down, no
    [onerror]).  A [top] that cannot be scanned (missing, or not a
    directory) yields nothing and raises nothing.  Otherwise the walk yields
    [(top, dirs, nondirs)] once; [dirs] is handed to the loop body as a live
    list, and whatever the body leaves in it is what the walk descends into
    afterwards, joining names to [top] with a slash.  [depth] is the number
    of further frames the interpreter allows.  Symbolic links are not told
    apart from what they point to. *)
Fixpoint os_walk (depth : nat) (top : string)
    (body : string -> list string -> list string -> M (list string))
    : M unit :=
  log (EvScandir top) ;;
  match os top with
  | Some (Directory listing) =>
      dirs <- body top (dirs_of listing) (nondirs_of listing) ;;
      for_each dirs (fun dirname =>
        match depth with
        | 0 => raise RecursionError
        | S depth' => os_walk depth' (top ++ "/" ++ dirname) body
        end)
  | _ => ret tt
  end.

(** [Path(path).mkdir(parents=True, exist_ok=True)]: nothing to do when
    the directory is there; [FileExistsError] when a regular file is in its
    place; [NotADirectoryError] when a regular file is on the way to it;
    otherwise the directory and its missing parents are made.  The disk
    model has no permissions, so no call fails for lack of them. *)
Definition Path_mkdir (path : string) : M unit :=
  log (EvMkdir path) ;;
  match os path with
  | Some (Directory _) => ret tt
  | Some (RegFile _) => raise (FileExistsError path)
  | None => if blocked path then raise (NotADirectoryError path) else ret tt
  end.

(** [ZipFile(path, "w")] in a directory that exists (the script has just
    made sure of it): [IsADirectoryError] when [path] is a directory;
    otherwise the file is created or emptied and the handle is a fresh,
    empty, open archive. *)
Definition ZipFile_open (path : string) : M unit :=
  log (EvOpen path) ;;
  match os path with
  | Some (Directory _) => raise (IsADirectoryError path)
  | _ => fun w => (Ok tt, {| zip_open := true; zip_entries := [];
                             stdout := stdout w; calls := calls w |})
  end.

Definition append_entry (name : string) (data : bytes) : M unit :=
  fun w => (Ok tt, {| zip_open := zip_open w;
                      zip_entries := zip_entries w ++ [(name, data)];
                      stdout := stdout w; calls := calls w |}).

(** [ZipFile.write(filename, arcname)]: refuses a closed handle, stats
    [filename] (which raises when the path names nothing), turns [arcname]
    into the member name, and appends one member of that name holding the
    file's bytes; a directory becomes an empty member whose name ends in a
    slash. *)
Definition ZipFile_write (filename arcname : string) : M unit :=
  fun w =>
    if zip_open w then
      (log (EvWrite filename arcname) ;;
       match os filename with
       | None => raise (stat_error filename)
       | Some found =>
           match zip_arcname arcname with
           | None => raise IndexError
           | Some name =>
               match found with
               | RegFile data => append_entry name data
               | Directory _ => append_entry (name ++ "/") []
               end
           end
       end) w
    else
      raise (ValueError "Attempt to write to ZIP archive that was already closed") w.

(** [ZipFile.close()], the one call that releases the handle.  The script
    never makes it. *)
Definition ZipFile_close : M unit :=
  log EvClose ;;
  fun w => (Ok tt, {| zip_open := false; zip_entries := zip_entries w;
                      stdout := stdout w; calls := calls w |}).

(** ** package.py *)

(** [def add_dir_to_target_dir(source_dir_name, target_dir_name)].
    [limit] is the nesting depth of calls the interpreter still allows. *)
Fixpoint add_dir_to_target_dir (limit : nat)
    (source_dir_name target_dir_name : string) : M unit :=
  match limit with
  | 0 => raise RecursionError
  | S limit' =>
      os_walk limit' source_dir_name (fun dirpath dirnames filenames =>
        dirnames <- for_in_shared dirnames (fun dirname _ =>
          let source := dirpath ++ "/" ++ dirname in
          let target := target_dir_name ++ "/" ++ dirname in
          print (dir_line source target) ;;
          add_dir_to_target_dir limit' source target ;;
          (* dirnames[:] = [] *)
          ret []) ;;
        for_each filenames (fun filename =>
          let source := dirpath ++ "/" ++ filename in
          let target := target_dir_name ++ "/" ++ filename in
          print (file_line source target) ;;
          ZipFile_write source target) ;;
        ret dirnames)
  end.

(** [def add_dir(relative_dir_name)]. *)
Definition add_dir (limit : nat) (relative_dir_name : string) : M unit :=
  let source_dir_name := self_dirname ++ "/" ++ relative_dir_name in
  add_dir_to_target_dir limit source_dir_name relative_dir_name.

(** [def add_file(relative_file_name)]. *)
Definition add_file (relative_file_name : string) : M unit :=
  let source_file_name := self_dirname ++ "/" ++ relative_file_name in
  ZipFile_write source_file_name relative_file_name.

(** The statements before the function definitions: the output directory
    and the archive handle. *)
Definition prologue : M unit :=
  Path_mkdir (self_dirname ++ "/build") ;;
  ZipFile_open (self_dirname ++ "/build/phantabular.xpi").

(** The inclusion list at the end of the script. *)
Definition inclusion_list (limit : nat) : M unit :=
  add_dir limit "archive" ;;
  add_dir limit "background" ;;
  add_dir limit "deps/dexie/dist" ;;
  add_file "deps/dexie/LICENSE" ;;
  add_file "deps/jexl/jexl.bundle.js" ;;
  add_file "deps/jexl/LICENSE.txt" ;;
  add_file "deps/mvp/mvp.css" ;;
  add_file "deps/mvp/LICENSE" ;;
  add_file "deps/open-color/open-color.css" ;;
  add_file "deps/open-color/LICENSE" ;;
  add_dir limit "icons" ;;
  add_dir limit "images" ;;
  add_dir limit "popup" ;;
  add_dir limit "settings" ;;
  add_dir limit "shared" ;;
  add_dir limit "LICENSE" ;;
  add_file "manifest.json".

(** Running the script from a fresh interpreter. *)
Definition package (limit : nat) : result unit * world :=
  (prologue ;; inclusion_list limit) boot.

End Packager.

(** ** Concrete disks

    A disk given as a tree rooted at [/].  Paths are resolved the POSIX
    way: split at slashes, empty components dropped, one directory level
    per component. *)

#[local] Set Warnings "-register-all".

Inductive tree : Type :=
| TFile (data : bytes)
| TDir (children : list (string * tree)).


Fixpoint tree_find (path : list string) (t : tree) : option tree :=
  match path with
  | [] => Some t
  | c :: path' =>
      match t with
      | TFile _ => None
      | TDir children =>
          (fix pick (l : list (string * tree)) : option tree :=
             match l with
             | [] => None
             | (name, child) :: l' =>
                 if String.eqb name c then tree_find path' child else pick l'
             end) children
      end
  end.

Definition is_dir (t : tree) : bool :=
  match t with TDir _ => true | TFile _ => false end.

Definition disk_of_tree (root : tree) : disk :=
  fun p =>
    match tree_find (components p) root with
    | None => None
    | Some (TFile data) => Some (RegFile data)
    | Some (TDir children) =>
        Some (Directory (map (fun e => (fst e, is_dir (snd e))) children))
    end.

(** The regular files below a tree, as paths relative to it. *)
Fixpoint files_below (t : tree) : list string :=
  match t with
  | TFile _ => []
  | TDir children =>
      (fix each (l : list (string * tree)) : list string :=
         match l with
         | [] => []
         | (name, TFile _) :: l' => name :: each l'
         | (name, (TDir _ as sub)) :: l' =>
             List.app (map (fun r => name ++ "/" ++ r) (files_below sub)) (each l')
         end) children
  end.

Definition names (w : world) : list string := map fst (zip_entries w).

Definition b (s : string) : bytes := list_byte_of_string s.

(** ** Relative paths *)

(** The part of a relative path before its first slash. *)
Fixpoint first_comp (s : string) : string :=
  match s with
  | EmptyString => EmptyString
  | String c s' => if Ascii.eqb c slash then EmptyString else String c (first_comp s')
  end.

(** ** The inclusion list as data

    The same calls as [inclusion_list], as a list that proofs can walk. *)

Inductive item : Type :=
| IDir (relative_dir_name : string)
| IFile (relative_file_name : string).

Definition items : list item :=
  [ IDir "archive"; IDir "background"; IDir "deps/dexie/dist";
    IFile "deps/dexie/LICENSE"; IFile "deps/jexl/jexl.bundle.js";
    IFile "deps/jexl/LICENSE.txt"; IFile "deps/mvp/mvp.css";
    IFile "deps/mvp/LICENSE"; IFile "deps/open-color/open-color.css";
    IFile "deps/open-color/LICENSE"; IDir "icons"; IDir "images";
    IDir "popup"; IDir "settings"; IDir "shared"; IDir "LICENSE";
    IFile "manifest.json" ].

Definition do_item (os : disk) (self_dirname : string) (limit : nat)
    (it : item) : M unit :=
  match it with
  | IDir r => add_dir os self_dirname limit r
  | IFile r => add_file os self_dirname r
  end.

(** The member names a call of the list can produce: below the directory
    for [add_dir]; the path itself for [add_file] (with a slash appended if
    the path turns out to be a directory). *)
Definition pattern (it : item) (n : string) : bool :=
  match it with
  | IDir r => starts_with (r ++ "/") n
  | IFile r => String.eqb n r || String.eqb n (r ++ "/")
  end.

Definition item_eqb (x y : item) : bool :=
  match x, y with
  | IDir a, IDir c => String.eqb a c
  | IFile a, IFile c => String.eqb a c
  | _, _ => false
  end.

(** No member name can come from both calls. *)
Definition apart (x y : item) : bool :=
  match x, y with
  | IDir a, IDir c =>
      negb (starts_with (a ++ "/") (c ++ "/")) && negb (starts_with (c ++ "/") (a ++ "/"))
  | IDir a, IFile c | IFile c, IDir a =>
      negb (starts_with (a ++ "/") c) && negb (starts_with (a ++ "/") (c ++ "/"))
  | IFile a, IFile c =>
      negb (String.eqb a c) && negb (String.eqb a (c ++ "/"))
      && negb (String.eqb (a ++ "/") c) && negb (String.eqb (a ++ "/") (c ++ "/"))
  end.

Definition all_apart (l : list item) : bool :=
  forallb (fun x => forallb (fun y => item_eqb x y || apart x y) l) l.

(** [q] is on the way to [src] or below it: some path that starts with
    [src] also starts with [q]. *)
Definition near (src q : string) : Prop := exists x z, src ++ x = q ++ z.

(** ** Properties of disks and of what a statement adds to the world *)

(** What [os.scandir] guarantees of a listing: distinct names, none with a
    slash in it. *)
Definition listing_ok (l : list (string * bool)) : Prop :=
  NoDup (map fst l) /\ Forall (fun e => has_slash (fst e) = false) l.

Definition disk_ok (os : disk) : Prop :=
  forall p l, os p = Some (Directory l) -> listing_ok l.

(** The same for a tree, as a test. *)
Fixpoint distinct (l : list string) : bool :=
  match l with
  | [] => true
  | x :: l' => negb (existsb (String.eqb x) l') && distinct l'
  end.

Fixpoint tree_ok (t : tree) : bool :=
  match t with
  | TFile _ => true
  | TDir children =>
      distinct (map fst children)
      && forallb (fun e => negb (has_slash (fst e))) children
      && (fix all (l : list (string * tree)) : bool :=
            match l with
            | [] => true
            | (_, child) :: l' => tree_ok child && all l'
            end) children
  end.

(** The last conjunct of [tree_ok], by name. *)
Fixpoint children_ok (l : list (string * tree)) : bool :=
  match l with
  | [] => true
  | (_, child) :: l' => tree_ok child && children_ok l'
  end.

(** A call of [add_dir_to_target_dir src tgt] may scan [src] and what lies
    below it, and write a file below [src] under the same relative path
    below [tgt]; it makes no other call. *)
Definition call_under (src tgt : string) (ev : event) : Prop :=
  match ev with
  | EvScandir p => p = src \/ exists x, p = src ++ "/" ++ x
  | EvWrite f a => exists x, f = src ++ "/" ++ x /\ a = tgt ++ "/" ++ x
  | _ => False
  end.

Definition name_under (tgt n : string) : Prop := exists x, n = tgt ++ "/" ++ x.

(** [n] lies below [tgt], in or at the entry called [c]. *)
Definition name_at (tgt c n : string) : Prop :=
  exists y, n = tgt ++ "/" ++ y /\ first_comp y = c.

(** [emits m K C]: run with the archive open, [m] leaves it open, only
    appends to the archive and to the call log, and what it appends
    satisfies [K] (member names) and [C] (calls). *)
Definition emits {A} (m : M A) (K : string -> Prop) (C : event -> Prop) : Prop :=
  forall w, zip_open w = true ->
    zip_open (snd (m w)) = true /\
    exists ne nc,
      zip_entries (snd (m w)) = (zip_entries w ++ ne)%list /\
      calls (snd (m w)) = (calls w ++ nc)%list /\
      Forall K (map fst ne) /\ Forall C nc.

(** [fresh m K]: the member names [m] appends are pairwise distinct and
    satisfy [K]. *)
Definition fresh {A} (m : M A) (K : string -> Prop) : Prop :=
  forall w, zip_open w = true ->
    zip_open (snd (m w)) = true /\
    exists ne,
      zip_entries (snd (m w)) = (zip_entries w ++ ne)%list /\
      NoDup (map fst ne) /\ Forall K (map fst ne).

(** What one level of [add_dir_to_target_dir] comes to, the directory loop
    having run for the first subdirectory only (shown below to agree with
    the function itself). *)
Definition one_level (os : disk) (limit : nat) (src tgt : string) : M unit :=
  log (EvScandir src) ;;
  match os src with
  | Some (Directory listing) =>
      match dirs_of listing with
      | [] => ret tt
      | d :: _ =>
          print (dir_line (src ++ "/" ++ d) (tgt ++ "/" ++ d)) ;;
          add_dir_to_target_dir os limit (src ++ "/" ++ d) (tgt ++ "/" ++ d)
      end ;;
      for_each (nondirs_of listing) (fun f =>
        print (file_line (src ++ "/" ++ f) (tgt ++ "/" ++ f)) ;;
        ZipFile_write os (src ++ "/" ++ f) (tgt ++ "/" ++ f))
  | _ => ret tt
  end.

(** ** The run as a whole *)

Definition item_name (it : item) : string :=
  match it with IDir r => r | IFile r => r end.

(** A path that does not start at the root. *)
Definition relative (s : string) : bool := negb (starts_with "/" s).

(** The calls one entry of the inclusion list can make: [add_dir r] scans
    [self_dirname/r] and directories below it and writes files below it
    under [r/...]; [add_file r] writes [self_dirname/r] as [r]. *)
Definition item_call (self_dirname : string) (it : item) (ev : event) : Prop :=
  match it, ev with
  | IDir r, EvScandir p =>
      p = self_dirname ++ "/" ++ r \/ exists x, p = self_dirname ++ "/" ++ r ++ "/" ++ x
  | IDir r, EvWrite f a =>
      exists x, f = self_dirname ++ "/" ++ r ++ "/" ++ x /\ a = r ++ "/" ++ x
  | IFile r, EvWrite f a => f = self_dirname ++ "/" ++ r /\ a = r
  | _, _ => False
  end.

Definition listed_call (self_dirname : string) (ev : event) : Prop :=
  exists it, In it items /\ item_call self_dirname it ev.

Definition listed_name (n : string) : Prop :=
  exists it, In it items /\ pattern it n = true.

(** The calls of the prologue. *)
Definition startup_call (ev : event) : Prop :=
  match ev with
  | EvMkdir _ | EvOpen _ => True
  | _ => False
  end.

(** The world the prologue leaves when it ends normally. *)
Definition after_prologue (self_dirname : string) : world :=
  {| zip_open := true; zip_entries := []; stdout := [];
     calls := [EvMkdir (self_dirname ++ "/build");
               EvOpen (self_dirname ++ "/build/phantabular.xpi")] |}.

(** A file is archived under the path it has below the script's directory. *)
Definition mirrored (self_dirname : string) (ev : event) : Prop :=
  match ev with
  | EvWrite f a => f = self_dirname ++ "/" ++ a
  | _ => True
  end.

(** A path the run reads lies below the script's directory, and the name
    it is archived under is relative. *)
Definition from_self (self_dirname : string) (ev : event) : Prop :=
  match ev with
  | EvScandir p => exists rel, p = self_dirname ++ "/" ++ rel /\ relative rel = true
  | EvWrite f a => f = self_dirname ++ "/" ++ a /\ relative a = true
  | _ => True
  end.

(** A disk on which the archive of an earlier run is present. *)
Definition with_output (os : disk) (self_dirname : string) (archive : bytes) : disk :=
  fun p =>
    if String.eqb p (self_dirname ++ "/build/phantabular.xpi") then Some (RegFile archive)
    else if String.eqb p (self_dirname ++ "/build") then Some (Directory [("phantabular.xpi", false)])
    else os p.

(** ** Sample disks *)

(** A checkout at [/proj] holding [archive/a.js] and [archive/sub/b.js]. *)
Definition proj_small : tree :=
  TDir [("proj", TDir [
    ("archive", TDir [("a.js", TFile (b "A"));
                      ("sub", TDir [("b.js", TFile (b "B"))])])])].

(** The same with a second subdirectory, [archive/lib/c.js]. *)
Definition proj_two_subdirs : tree :=
  TDir [("proj", TDir [
    ("archive", TDir [("a.js", TFile (b "A"));
                      ("sub", TDir [("b.js", TFile (b "B"))]);
                      ("lib", TDir [("c.js", TFile (b "C"))])])])].

Definition deps_dir : tree :=
  TDir [("dexie", TDir [("dist", TDir [("dexie.js", TFile (b "D"))]);
                        ("LICENSE", TFile (b "L1"))]);
        ("jexl", TDir [("jexl.bundle.js", TFile (b "J"));
                       ("LICENSE.txt", TFile (b "L2"))]);
        ("mvp", TDir [("mvp.css", TFile (b "M")); ("LICENSE", TFile (b "L3"))]);
        ("open-color", TDir [("open-color.css", TFile (b "O"));
                             ("LICENSE", TFile (b "L4"))])].

Definition checkout_rest : list (string * tree) :=
  [("background", TDir [("background.js", TFile (b "G"))]);
   ("deps", deps_dir);
   ("icons", TDir [("icon.svg", TFile (b "I"))]);
   ("images", TDir [("logo.png", TFile (b "P"))]);
   ("popup", TDir [("popup.html", TFile (b "U"))]);
   ("settings", TDir [("settings.html", TFile (b "S"))]);
   ("shared", TDir [("shared.js", TFile (b "H"))]);
   ("LICENSE", TFile (b "L0"));
   ("manifest.json", TFile (b "{}"));
   ("package.py", TFile (b "#"))].

(** A complete checkout: everything the inclusion list names is there. *)
Definition proj_full : tree :=
  TDir [("proj", TDir (("archive", TDir [("a.js", TFile (b "A"))]) :: checkout_rest))].

(** A checkout from which the [archive] directory is missing. *)
Definition proj_no_archive : tree :=
  TDir [("proj", TDir checkout_rest)].

(** A checkout in which [deps] is a regular file. *)
Definition proj_deps_file : tree :=
  TDir [("proj", TDir [("deps", TFile (b "?")); ("manifest.json", TFile (b "{}"))])].

(** An open, empty archive: the world right after the prologue, minus its
    log. *)
Definition opened : world :=
  {| zip_open := true; zip_entries := []; stdout := []; calls := [] |}.

(** ** Members and the files they come from *)

(** The member [ZipFile.write(f, a)] appends: named [a] with the bytes of
    the regular file [f], or named [a/] and empty when [f] is a directory. *)
Definition holds (os : disk) (f a : string) (e : string * bytes) : Prop :=
  (exists data, os f = Some (RegFile data) /\ e = (a, data))
  \/ (exists l, os f = Some (Directory l) /\ e = (a ++ "/", [])).

(** A member that holds what lies at its own name below the script's
    directory. *)
Definition faithful (os : disk) (self_dirname : string) (e : string * bytes) : Prop :=
  exists a, holds os (self_dirname ++ "/" ++ a) a e.

(** [adds m P]: run with the archive open, [m] leaves it open and only
    appends members, each satisfying [P]. *)
Definition adds {A} (m : M A) (P : string * bytes -> Prop) : Prop :=
  forall w, zip_open w = true ->
    zip_open (snd (m w)) = true /\
    exists ne, zip_entries (snd (m w)) = (zip_entries w ++ ne)%list /\ Forall P ne.

(** A member name some call of the inclusion list can produce. *)
Definition listed (n : string) : bool := existsb (fun it => pattern it n) items.

(** ** What a walk archives from a tree *)

(** The depth of a tree: a file is 0, a directory one more than its
    deepest child. *)
Fixpoint height (t : tree) : nat :=
  match t with
  | TFile _ => 0
  | TDir children =>
      S ((fix deepest (l : list (string * tree)) : nat :=
            match l with
            | [] => 0
            | (_, child) :: l' => Nat.max (height child) (deepest l')
            end) children)
  end.

Fixpoint deepest (l : list (string * tree)) : nat :=
  match l with
  | [] => 0
  | (_, child) :: l' => Nat.max (height child) (deepest l')
  end.















(** ** What a call reads *)

(** The path a call hands to the operating system. *)
Definition ev_path (ev : event) : option string :=
  match ev with
  | EvScandir p => Some p
  | EvWrite f _ => Some f
  | _ => None
  end.

(** [ev] reads [p] or something below it. *)
Definition touches (p : string) (ev : event) : Prop :=
  exists q, ev_path ev = Some q /\ (q = p \/ exists x, q = p ++ "/" ++ x).

(** The directories scanned, in order. *)
Definition scans (l : list event) : list string :=
  flat_map (fun ev => match ev with EvScandir p => [p] | _ => [] end) l.

(** [scans_fresh m K]: the directories [m] scans are pairwise distinct and
    satisfy [K]. *)
Definition scans_fresh {A} (m : M A) (K : string -> Prop) : Prop :=
  forall w, exists nc,
    calls (snd (m w)) = (calls w ++ nc)%list
    /\ NoDup (scans nc) /\ Forall K (scans nc).

(** The directories a call of the inclusion list can scan. *)
Definition scan_pattern (self_dirname : string) (it : item) (p : string) : Prop :=
  match it with
  | IDir r => p = self_dirname ++ "/" ++ r \/ exists x, p = self_dirname ++ "/" ++ r ++ "/" ++ x
  | IFile _ => False
  end.

(** ** Progress lines *)

(** The lines of standard output that announce a file. *)
Definition file_lines (ns : list string) : list string :=
  filter (starts_with "Writing file: ") ns.

(** The line that goes with a call: one for every write. *)
Definition announce (ev : event) : list string :=
  match ev with
  | EvWrite f a => [file_line f a]
  | _ => []
  end.

(** [tells m]: run with the archive open, [m] leaves it open, and the file
    lines it prints are, in order, those of the writes it makes. *)
Definition tells {A} (m : M A) : Prop :=
  forall w, zip_open w = true ->
    zip_open (snd (m w)) = true /\
    exists ns nc,
      stdout (snd (m w)) = (stdout w ++ ns)%list
      /\ calls (snd (m w)) = (calls w ++ nc)%list
      /\ file_lines ns = flat_map announce nc.

(** * Facts *)

(** ** Strings *)

Lemma append_assoc (a c d : string) : (a ++ c) ++ d = a ++ (c ++ d).
Proof. induction a as [|x a IH]; simpl; [reflexivity | now rewrite IH]. Qed.

Lemma append_inv_head (a x y : string) : a ++ x = a ++ y -> x = y.
Proof.
  induction a as [|c a IH]; simpl; intros H; [assumption|].
  injection H as H. auto.
Qed.

Lemma first_comp_join (c x : string) :
  has_slash c = false -> first_comp (c ++ "/" ++ x) = c.
Proof.
  induction c as [|ch c IH]; simpl in *; intros H; [reflexivity|].
  apply orb_false_iff in H as [H1 H2]. rewrite H1, IH by assumption. reflexivity.
Qed.

Lemma first_comp_plain (c : string) : has_slash c = false -> first_comp c = c.
Proof.
  induction c as [|ch c IH]; simpl; intros H; [reflexivity|].
  apply orb_false_iff in H as [H1 H2]. rewrite H1, IH by assumption. reflexivity.
Qed.

Lemma starts_with_app (p x : string) : starts_with p (p ++ x) = true.
Proof.
  induction p as [|c p IH]; simpl; [reflexivity|].
  now rewrite Ascii.eqb_refl, IH.
Qed.

Lemma starts_with_inv (p s : string) :
  starts_with p s = true -> exists x, s = p ++ x.
Proof.
  revert s. induction p as [|c p IH]; intros s H; simpl in *.
  - now exists s.
  - destruct s as [|d s]; [discriminate|].
    apply andb_true_iff in H as [H1 H2]. apply Ascii.eqb_eq in H1. subst d.
    destruct (IH _ H2) as [x ->]. now exists x.
Qed.

Lemma starts_with_both (p q s : string) :
  starts_with p s = true -> starts_with q s = true ->
  starts_with p q = true \/ starts_with q p = true.
Proof.
  revert q s. induction p as [|c p IH]; intros q s Hp Hq; simpl in *.
  - now left.
  - destruct q as [|d q]; [now right|].
    destruct s as [|e s]; [discriminate|]. simpl in *.
    apply andb_true_iff in Hp as [Hp1 Hp2]. apply andb_true_iff in Hq as [Hq1 Hq2].
    apply Ascii.eqb_eq in Hp1, Hq1. subst c d. rewrite Ascii.eqb_refl. simpl.
    eauto.
Qed.

Lemma name_at_under (tgt c n : string) : name_at tgt c n -> name_under tgt n.
Proof. intros [y [-> _]]. now exists y. Qed.

Lemma name_at_fun (tgt c c' n : string) : name_at tgt c n -> name_at tgt c' n -> c = c'.
Proof.
  intros [y [-> Hy]] [y' [E Hy']].
  apply append_inv_head in E. simpl in E. injection E as E. congruence.
Qed.

Lemma name_under_at (tgt d n : string) :
  has_slash d = false -> name_under (tgt ++ "/" ++ d) n -> name_at tgt d n.
Proof.
  intros Hd [x ->]. exists (d ++ "/" ++ x). split.
  - now rewrite !append_assoc.
  - now apply first_comp_join.
Qed.

(** ** Path pieces and member names *)

Lemma append_nil_r (s : string) : s ++ EmptyString = s.
Proof. induction s as [|c s IH]; simpl; [reflexivity | now rewrite IH]. Qed.

Lemma string_of_list_ascii_app (l1 l2 : list ascii) :
  string_of_list_ascii (l1 ++ l2) = string_of_list_ascii l1 ++ string_of_list_ascii l2.
Proof. induction l1 as [|c l1 IH]; simpl; [reflexivity | now rewrite IH]. Qed.

(** A piece without a slash is one component, unless it is empty. *)
Lemma components_from_plain (n : string) :
  has_slash n = false ->
  forall cur,
    components_from cur n
    = match cur, n with
      | [], EmptyString => []
      | _, _ => [string_of_list_ascii (rev cur) ++ n]
      end.
Proof.
  induction n as [|c n IH]; intros H cur.
  - simpl. destruct cur; [reflexivity|]. now rewrite append_nil_r.
  - simpl in H. apply orb_false_iff in H as [H1 H2].
    cbn [components_from]. rewrite H1, (IH H2). cbn [rev].
    rewrite string_of_list_ascii_app, append_assoc. simpl.
    destruct cur; reflexivity.
Qed.

Lemma components_from_join (n : string) :
  has_slash n = false -> n <> EmptyString ->
  forall s cur, components_from cur (s ++ "/" ++ n) = (components_from cur s ++ [n])%list.
Proof.
  intros Hs Hn. induction s as [|c s IH]; intros cur.
  - cbn [append components_from]. rewrite Ascii.eqb_refl.
    rewrite (components_from_plain n Hs []). destruct n; [contradiction|]. reflexivity.
  - cbn [append components_from]. destruct (Ascii.eqb c slash).
    + rewrite IH. now rewrite app_assoc.
    + apply IH.
Qed.

Lemma components_join (src n : string) :
  has_slash n = false -> n <> EmptyString ->
  components (src ++ "/" ++ n) = (components src ++ [n])%list.
Proof. intros Hs Hn. now apply components_from_join. Qed.

Lemma file_name_ok_inv (n : string) :
  file_name_ok n = true ->
  has_slash n = false /\ n <> EmptyString /\ n <> "." /\ n <> "..".
Proof.
  unfold file_name_ok. intros H.
  repeat (apply andb_true_iff in H as [H ?]).
  repeat match goal with E : negb _ = true |- _ => apply negb_true_iff in E end.
  repeat split; try assumption; intros ->; discriminate.
Qed.

Lemma join_path_snoc (comps : list string) (f : string) :
  comps <> [] -> join_path (comps ++ [f]) = join_path comps ++ "/" ++ f.
Proof.
  induction comps as [|c [|c' cs] IH]; intros H; [contradiction | reflexivity |].
  change (join_path ((c :: c' :: cs) ++ [f]))
    with (c ++ "/" ++ join_path ((c' :: cs) ++ [f])).
  rewrite IH by discriminate.
  change (join_path (c :: c' :: cs)) with (c ++ "/" ++ join_path (c' :: cs)).
  now rewrite !append_assoc.
Qed.

Lemma norm_step_name (rooted : bool) (kept : list string) (n : string) :
  file_name_ok n = true -> norm_step rooted kept n = n :: kept.
Proof.
  intros H. apply file_name_ok_inv in H as [_ [_ [H1 H2]]]. unfold norm_step.
  destruct (String.eqb_spec n "."); [contradiction|].
  destruct (String.eqb_spec n ".."); [contradiction | reflexivity].
Qed.

Lemma norm_names (rooted : bool) (comps : list string) :
  forallb file_name_ok comps = true ->
  forall kept, fold_left (norm_step rooted) comps kept = (rev comps ++ kept)%list.
Proof.
  induction comps as [|c comps IH]; intros H kept; [reflexivity|].
  simpl in H. apply andb_true_iff in H as [Hc H].
  cbn [fold_left rev]. rewrite norm_step_name by assumption.
  rewrite IH by assumption. now rewrite <- app_assoc.
Qed.

Lemma clean_inv (s : string) :
  clean s = true ->
  exists c comps, components s = c :: comps
                  /\ forallb file_name_ok (c :: comps) = true
                  /\ s = join_path (c :: comps).
Proof.
  unfold clean. destruct (components s) as [|c comps]; [discriminate|].
  intros H. apply andb_true_iff in H as [H1 H2]. apply String.eqb_eq in H2.
  now exists c, comps.
Qed.

Lemma join_path_head (c : string) (comps : list string) :
  exists t, join_path (c :: comps) = c ++ t.
Proof.
  destruct comps as [|c' cs].
  - exists EmptyString. simpl. now rewrite append_nil_r.
  - now exists ("/" ++ join_path (c' :: cs)).
Qed.

Lemma name_first_char (c t : string) :
  file_name_ok c = true ->
  exists ch rest, c ++ t = String ch rest /\ Ascii.eqb ch slash = false.
Proof.
  intros H. apply file_name_ok_inv in H as [Hs [Hn _]].
  destruct c as [|ch c]; [contradiction|]. simpl in Hs.
  apply orb_false_iff in Hs as [Hs _]. now exists ch, (c ++ t).
Qed.

(** The library leaves a clean path as it is. *)
Lemma clean_zip_arcname (s : string) : clean s = true -> zip_arcname s = Some s.
Proof.
  intros H. destruct (clean_inv s H) as [c [comps [Hc [Hok Hs]]]].
  destruct (join_path_head c comps) as [t Ht].
  assert (Hc' : file_name_ok c = true) by (simpl in Hok; now apply andb_true_iff in Hok).
  destruct (name_first_char c t Hc') as [ch [rest [E Hch]]].
  assert (R : starts_with "/" s = false).
  { rewrite Hs, Ht, E. cbn [starts_with]. unfold slash in Hch.
    rewrite Ascii.eqb_sym in Hch. now rewrite Hch. }
  assert (N : String.eqb s EmptyString = false) by (rewrite Hs, Ht, E; reflexivity).
  unfold zip_arcname. cbv zeta. rewrite Hc, norm_names by assumption.
  rewrite app_nil_r, rev_involutive, <- Hs, R, N. reflexivity.
Qed.

Lemma clean_join (s f : string) :
  clean s = true -> file_name_ok f = true -> clean (s ++ "/" ++ f) = true.
Proof.
  intros H Hf. destruct (clean_inv s H) as [c [comps [Hc [Hok Hs]]]].
  destruct (file_name_ok_inv f Hf) as [Hsl [Hne _]].
  unfold clean. rewrite components_join, Hc by assumption.
  cbn [app]. apply andb_true_iff. split.
  - change (c :: (comps ++ [f])%list) with ((c :: comps) ++ [f])%list.
    rewrite forallb_app, Hok. simpl. now rewrite Hf.
  - apply String.eqb_eq.
    change (c :: (comps ++ [f])%list) with ((c :: comps) ++ [f])%list.
    rewrite join_path_snoc by discriminate. now rewrite <- Hs.
Qed.

(** ** Sequencing *)

Lemma bind_ext {A B} (m m' : M A) (k k' : A -> M B) (w : world) :
  m w = m' w -> (forall a w', k a w' = k' a w') -> bind m k w = bind m' k' w.
Proof.
  intros Hm Hk. unfold bind. rewrite Hm.
  destruct (m' w) as [[a|e] w']; [apply Hk | reflexivity].
Qed.

Lemma bind_ret_r {A} (m : M A) (w : world) : bind m ret w = m w.
Proof. unfold bind, ret. now destruct (m w) as [[a|e] w']. Qed.

Lemma bind_unit_r (m : M unit) (w : world) : (m ;; ret tt) w = m w.
Proof. unfold bind, ret. now destruct (m w) as [[[]|e] w']. Qed.

Lemma bind_assoc {A B C} (m : M A) (k : A -> M B) (h : B -> M C) (w : world) :
  bind (bind m k) h w = bind m (fun a => bind (k a) h) w.
Proof. unfold bind. now destruct (m w) as [[a|e] w']. Qed.

Lemma for_each_ext {A} (xs : list A) (f g : A -> M unit) :
  (forall x w, In x xs -> f x w = g x w) ->
  forall w, for_each xs f w = for_each xs g w.
Proof.
  induction xs as [|x xs IH]; intros H w; simpl; [reflexivity|].
  apply bind_ext; [apply H; now left|].
  intros _ w'. apply IH. intros y w'' Hy. apply H. now right.
Qed.

(** ** The directory loop runs once

    The loop over [dirnames] empties the list at the end of its first
    iteration, so the iterator finds nothing at position 1: only the first
    subdirectory is visited, and the walk itself, handed back an empty
    list, descends nowhere. *)

Lemma for_in_shared_emptied {A} (x : A) (xs : list A) (a c : A -> M unit) (w : world) :
  for_in_shared (x :: xs) (fun y _ => a y ;; c y ;; ret []) w
  = (a x ;; c x ;; ret []) w.
Proof.
  unfold for_in_shared. cbn [length for_shared nth_error]. unfold bind, ret.
  destruct (a x w) as [[[]|e] w1]; [|reflexivity].
  destruct (c x w1) as [[[]|e] w2]; [|reflexivity].
  destruct (length xs); reflexivity.
Qed.

Lemma os_walk_once (os : disk) (depth : nat) (top : string)
    (body : string -> list string -> list string -> M (list string)) (w : world) :
  (forall t ds fs w1 left w2, body t ds fs w1 = (Ok left, w2) -> left = []) ->
  os_walk os depth top body w
  = (log (EvScandir top) ;;
     match os top with
     | Some (Directory listing) =>
         body top (dirs_of listing) (nondirs_of listing) ;; ret tt
     | _ => ret tt
     end) w.
Proof.
  intros Hbody.
  destruct depth; cbn [os_walk]; (apply bind_ext; [reflexivity|]); intros _ w1;
    (destruct (os top) as [[data|listing]|]; [reflexivity| |reflexivity]);
    unfold bind;
    destruct (body top (dirs_of listing) (nondirs_of listing) w1) as [[left|e] w2] eqn:E;
    try reflexivity;
    apply Hbody in E; subst left; reflexivity.
Qed.

Lemma add_dir_to_target_dir_S (os : disk) (limit : nat) (src tgt : string) (w : world) :
  add_dir_to_target_dir os (S limit) src tgt w = one_level os limit src tgt w.
Proof.
  unfold one_level. cbn [add_dir_to_target_dir].
  rewrite os_walk_once.
  - apply bind_ext; [reflexivity|]. intros _ w1.
    destruct (os src) as [[data|listing]|]; [reflexivity| |reflexivity].
    destruct (dirs_of listing) as [|d ds].
    + unfold for_in_shared. cbn [length for_shared]. unfold bind, ret.
      destruct (for_each _ _ w1) as [[[]|e] w2]; reflexivity.
    + rewrite bind_assoc.
      erewrite bind_ext; [| apply for_in_shared_emptied | reflexivity].
      unfold bind, ret.
      destruct (print _ w1) as [[[]|e] w2]; [|reflexivity].
      destruct (add_dir_to_target_dir os limit _ _ w2) as [[[]|e] w3]; [|reflexivity].
      destruct (for_each _ _ w3) as [[[]|e] w4]; reflexivity.
  - intros t ds fs w1 left w2. destruct ds as [|d ds].
    + unfold for_in_shared. cbn [length for_shared]. unfold bind, ret.
      destruct (for_each _ _ w1) as [[[]|e] w3]; congruence.
    + rewrite bind_ext with (m' := (print (dir_line (t ++ "/" ++ d) (tgt ++ "/" ++ d)) ;;
          add_dir_to_target_dir os limit (t ++ "/" ++ d) (tgt ++ "/" ++ d) ;; ret []))
          (k' := fun dirnames => for_each fs (fun filename =>
             print (file_line (t ++ "/" ++ filename) (tgt ++ "/" ++ filename)) ;;
             ZipFile_write os (t ++ "/" ++ filename) (tgt ++ "/" ++ filename)) ;; ret dirnames);
        [| apply for_in_shared_emptied with
             (a := fun y => print (dir_line (t ++ "/" ++ y) (tgt ++ "/" ++ y)))
             (c := fun y => add_dir_to_target_dir os limit (t ++ "/" ++ y) (tgt ++ "/" ++ y))
         | reflexivity].
      unfold bind, ret.
      destruct (print _ w1) as [[[]|e] w3]; [|congruence].
      destruct (add_dir_to_target_dir os limit _ _ w3) as [[[]|e] w4]; [|congruence].
      destruct (for_each _ _ w4) as [[[]|e] w5]; congruence.
Qed.

(** ** What statements add to the world *)

Lemma emits_ext {A} (m m' : M A) K C :
  (forall w, m w = m' w) -> emits m' K C -> emits m K C.
Proof. intros E H w Hw. rewrite E. now apply H. Qed.

Lemma emits_mono {A} (m : M A) (K K' : string -> Prop) (C C' : event -> Prop) :
  (forall n, K n -> K' n) -> (forall e, C e -> C' e) -> emits m K C -> emits m K' C'.
Proof.
  intros HK HC H w Hw. destruct (H w Hw) as [Ho [ne [nc [He [Hc [F1 F2]]]]]].
  split; [assumption|]. exists ne, nc. repeat split; try assumption.
  - eapply Forall_impl; [apply HK | assumption].
  - eapply Forall_impl; [apply HC | assumption].
Qed.

Lemma emits_ret {A} (a : A) K C : emits (ret a) K C.
Proof.
  intros w Hw. simpl. split; [assumption|]. exists [], [].
  rewrite !app_nil_r. repeat split; constructor.
Qed.

Lemma emits_raise {A} (e : exn) K C : emits (@raise A e) K C.
Proof.
  intros w Hw. simpl. split; [assumption|]. exists [], [].
  rewrite !app_nil_r. repeat split; constructor.
Qed.

Lemma emits_bind {A B} (m : M A) (k : A -> M B) K C :
  emits m K C -> (forall a, emits (k a) K C) -> emits (bind m k) K C.
Proof.
  intros Hm Hk w Hw. specialize (Hm w Hw). unfold bind.
  destruct (m w) as [[a|e] w1]; simpl in Hm; [|exact Hm].
  destruct Hm as [Ho [ne [nc [He [Hc [F1 F2]]]]]].
  destruct (Hk a w1 Ho) as [Ho' [ne' [nc' [He' [Hc' [F1' F2']]]]]].
  split; [assumption|]. exists (ne ++ ne')%list, (nc ++ nc')%list.
  rewrite He', Hc', He, Hc, <- !app_assoc, map_app.
  repeat split; apply Forall_app; auto.
Qed.

Lemma emits_for_each {A} (xs : list A) (body : A -> M unit) K C :
  (forall x, In x xs -> emits (body x) K C) -> emits (for_each xs body) K C.
Proof.
  induction xs as [|x xs IH]; intros H; simpl.
  - apply emits_ret.
  - apply emits_bind; [apply H; now left|].
    intros _. apply IH. intros y Hy. apply H. now right.
Qed.

Lemma emits_log (ev : event) K (C : event -> Prop) : C ev -> emits (log ev) K C.
Proof.
  intros HC w Hw. simpl. split; [assumption|]. exists [], [ev].
  rewrite app_nil_r. repeat split; constructor; auto.
Qed.

Lemma emits_print (line : string) K C : emits (print line) K C.
Proof.
  intros w Hw. simpl. split; [assumption|]. exists [], [].
  rewrite !app_nil_r. repeat split; constructor.
Qed.

Lemma emits_write (os : disk) (f a : string) (K : string -> Prop) (C : event -> Prop) :
  (forall n, zip_arcname a = Some n -> K n /\ K (n ++ "/")) ->
  C (EvWrite f a) -> emits (ZipFile_write os f a) K C.
Proof.
  intros HK HC w Hw. unfold ZipFile_write. rewrite Hw.
  unfold bind, log, append_entry, raise.
  destruct (os f) as [found|];
    [destruct (zip_arcname a) as [n|];
       [destruct (HK n eq_refl) as [Kn Kd]; destruct found as [data|listing]|]|];
    simpl; (split; [assumption|]).
  - exists [(n, data)], [EvWrite f a]. repeat split; repeat constructor; auto.
  - exists [(n ++ "/", [])], [EvWrite f a]. repeat split; repeat constructor; auto.
  - exists [], [EvWrite f a]. rewrite app_nil_r. repeat split; repeat constructor; auto.
  - exists [], [EvWrite f a]. rewrite app_nil_r. repeat split; repeat constructor; auto.
Qed.

Lemma emits_write_clean (os : disk) (f a : string) (K : string -> Prop)
    (C : event -> Prop) :
  clean a = true -> K a -> K (a ++ "/") -> C (EvWrite f a) ->
  emits (ZipFile_write os f a) K C.
Proof.
  intros Ha Ka Kd HC. apply emits_write; [|assumption].
  intros n E. rewrite (clean_zip_arcname a Ha) in E. now injection E as <-.
Qed.

Lemma in_dirs_of (l : list (string * bool)) (d : string) :
  In d (dirs_of l) <-> In (d, true) l /\ file_name_ok d = true.
Proof.
  unfold dirs_of. rewrite in_map_iff. split.
  - intros [[n k] [E H]]. apply filter_In in H as [H1 H2]. simpl in *.
    apply andb_true_iff in H2 as [H2 H3]. now subst.
  - intros [H Hn]. exists (d, true). split; [reflexivity|]. apply filter_In.
    split; [assumption|]. simpl. now rewrite Hn.
Qed.

Lemma in_nondirs_of (l : list (string * bool)) (f : string) :
  In f (nondirs_of l) <-> In (f, false) l /\ file_name_ok f = true.
Proof.
  unfold nondirs_of. rewrite in_map_iff. split.
  - intros [[n k] [E H]]. apply filter_In in H as [H1 H2]. simpl in *.
    apply andb_true_iff in H2 as [H2 H3]. apply negb_true_iff in H2. now subst.
  - intros [H Hn]. exists (f, false). split; [reflexivity|]. apply filter_In.
    split; [assumption|]. simpl. now rewrite Hn.
Qed.

Lemma first_dir_name (l : list (string * bool)) (d : string) (ds : list string) :
  dirs_of l = d :: ds -> file_name_ok d = true.
Proof.
  intros E. assert (H : In d (dirs_of l)) by (rewrite E; now left).
  now apply in_dirs_of in H.
Qed.

Lemma call_under_join (src tgt d : string) (ev : event) :
  call_under (src ++ "/" ++ d) (tgt ++ "/" ++ d) ev -> call_under src tgt ev.
Proof.
  destruct ev; simpl; try tauto.
  - intros [-> | [x ->]]; right; [now exists d|].
    exists (d ++ "/" ++ x). now rewrite !append_assoc.
  - intros [x [-> ->]]. exists (d ++ "/" ++ x). now rewrite !append_assoc.
Qed.

Lemma name_under_join (tgt d n : string) :
  name_under (tgt ++ "/" ++ d) n -> name_under tgt n.
Proof. intros [x ->]. exists (d ++ "/" ++ x). now rewrite !append_assoc. Qed.

Lemma name_under_dir (tgt f : string) : name_under tgt ((tgt ++ "/" ++ f) ++ "/").
Proof. exists (f ++ "/"). now rewrite !append_assoc. Qed.

(** Whatever the disk and the recursion limit, a call of
    [add_dir_to_target_dir src tgt] only scans [src] and below, and writes
    files below [src] under the same relative path below [tgt]; when [tgt]
    is clean, the members it appends are named below [tgt]. *)
Lemma walk_emits (os : disk) (limit : nat) :
  forall src tgt,
    emits (add_dir_to_target_dir os limit src tgt)
          (fun n => clean tgt = true -> name_under tgt n) (call_under src tgt).
Proof.
  induction limit as [|limit IH]; intros src tgt.
  - apply emits_raise.
  - eapply emits_ext; [intros w; apply add_dir_to_target_dir_S|].
    unfold one_level. apply emits_bind; [apply emits_log; now left|]. intros _.
    destruct (os src) as [[data|listing]|]; try apply emits_ret.
    apply emits_bind.
    + destruct (dirs_of listing) as [|d ds] eqn:Ed; [apply emits_ret|].
      apply first_dir_name in Ed.
      apply emits_bind; [apply emits_print|]. intros _.
      eapply emits_mono; [| apply call_under_join | apply IH].
      intros n Hn Ht. apply name_under_join with (d := d). apply Hn.
      now apply clean_join.
    + intros _. apply emits_for_each. intros f Hf.
      apply in_nondirs_of in Hf as [_ Hf].
      apply emits_bind; [apply emits_print|]. intros _.
      apply emits_write; [|now exists f].
      intros n E. split; intros Ht;
        rewrite (clean_zip_arcname _ (clean_join _ _ Ht Hf)) in E;
        injection E as <-; [now exists f | apply name_under_dir].
Qed.

(** ** Distinct member names *)

Lemma fresh_ext {A} (m m' : M A) K :
  (forall w, m w = m' w) -> fresh m' K -> fresh m K.
Proof. intros E H w Hw. rewrite E. now apply H. Qed.

Lemma fresh_mono {A} (m : M A) (K K' : string -> Prop) :
  (forall n, K n -> K' n) -> fresh m K -> fresh m K'.
Proof.
  intros HK H w Hw. destruct (H w Hw) as [Ho [ne [He [N F]]]].
  split; [assumption|]. exists ne. repeat split; try assumption.
  eapply Forall_impl; [apply HK | assumption].
Qed.

Lemma fresh_quiet {A} (m : M A) K :
  (forall w, zip_open (snd (m w)) = zip_open w /\ zip_entries (snd (m w)) = zip_entries w) ->
  fresh m K.
Proof.
  intros H w Hw. destruct (H w) as [Ho He]. split; [congruence|].
  exists []. rewrite app_nil_r. repeat split; [assumption | constructor | constructor].
Qed.

Lemma fresh_ret {A} (a : A) K : fresh (ret a) K.
Proof. apply fresh_quiet. now intros w. Qed.

Lemma fresh_raise {A} (e : exn) K : fresh (@raise A e) K.
Proof. apply fresh_quiet. now intros w. Qed.

Lemma fresh_log (ev : event) K : fresh (log ev) K.
Proof. apply fresh_quiet. now intros w. Qed.

Lemma fresh_print (line : string) K : fresh (print line) K.
Proof. apply fresh_quiet. now intros w. Qed.

Lemma fresh_bind {A B} (m : M A) (k : A -> M B) (K1 K2 : string -> Prop) :
  fresh m K1 -> (forall a, fresh (k a) K2) -> (forall n, K1 n -> K2 n -> False) ->
  fresh (bind m k) (fun n => K1 n \/ K2 n).
Proof.
  intros Hm Hk Hd w Hw. specialize (Hm w Hw). unfold bind.
  destruct (m w) as [[a|e] w1]; simpl in Hm.
  - destruct Hm as [Ho [ne [He [N F]]]].
    destruct (Hk a w1 Ho) as [Ho' [ne' [He' [N' F']]]].
    split; [assumption|]. exists (ne ++ ne')%list.
    rewrite He', He, <- app_assoc, map_app. repeat split.
    + apply NoDup_app; try assumption. intros n H1 H2.
      rewrite Forall_forall in F, F'. eauto.
    + apply Forall_app. split; (eapply Forall_impl; [|eassumption]); simpl; auto.
  - destruct Hm as [Ho [ne [He [N F]]]]. simpl. split; [assumption|].
    exists ne. repeat split; try assumption.
    eapply Forall_impl; [|eassumption]. simpl; auto.
Qed.

(** Sequencing a statement that appends nothing. *)
Lemma fresh_after {A B} (m : M A) (k : A -> M B) (K : string -> Prop) :
  fresh m (fun _ => False) -> (forall a, fresh (k a) K) -> fresh (bind m k) K.
Proof.
  intros Hm Hk. eapply fresh_mono; [|apply fresh_bind; eauto]; simpl; tauto.
Qed.

Lemma fresh_for_each {A} (xs : list A) (body : A -> M unit) (K : A -> string -> Prop) :
  NoDup xs ->
  (forall x, In x xs -> fresh (body x) (K x)) ->
  (forall x y n, In x xs -> In y xs -> K x n -> K y n -> x = y) ->
  fresh (for_each xs body) (fun n => exists x, In x xs /\ K x n).
Proof.
  induction xs as [|x xs IH]; intros N Hb Hd; simpl.
  - apply fresh_ret.
  - apply NoDup_cons_iff in N as [Hx N].
    eapply fresh_mono; [|apply fresh_bind with (K1 := K x)
                           (K2 := fun n => exists y, In y xs /\ K y n)].
    + intros n [H | [y [Hy H]]]; [exists x | exists y]; simpl; auto.
    + apply Hb. now left.
    + intros _. apply IH; [assumption | |].
      * intros y Hy. apply Hb. now right.
      * intros y z n Hy Hz. apply Hd; now right.
    + intros n H1 [y [Hy H2]]. apply Hx.
      assert (x = y) by (apply (Hd x y n); simpl; auto). now subst.
Qed.

Lemma fresh_write (os : disk) (f a : string) (K : string -> Prop) :
  clean a = true -> K a -> K (a ++ "/") -> fresh (ZipFile_write os f a) K.
Proof.
  intros Ha Ka Kd w Hw. unfold ZipFile_write. rewrite Hw.
  rewrite (clean_zip_arcname a Ha). unfold bind, log, append_entry, raise.
  destruct (os f) as [[data|listing]|]; simpl; (split; [assumption|]).
  - exists [(a, data)]. repeat split; repeat constructor; auto.
  - exists [(a ++ "/", [])]. repeat split; repeat constructor; auto.
  - exists []. rewrite app_nil_r. repeat split; constructor.
Qed.

(** ** Listings *)

Lemma NoDup_map_fst_filter {A B} (p : A * B -> bool) (l : list (A * B)) :
  NoDup (map fst l) -> NoDup (map fst (filter p l)).
Proof.
  induction l as [|e l IH]; simpl; intros N; [constructor|].
  apply NoDup_cons_iff in N as [Hx N]. destruct (p e); simpl; auto.
  constructor; auto. intros H. apply Hx.
  apply in_map_iff in H as [e' [E H]]. apply filter_In in H as [H _].
  apply in_map_iff. eauto.
Qed.

Lemma NoDup_fst_fun {A B} (l : list (A * B)) (a : A) (x y : B) :
  NoDup (map fst l) -> In (a, x) l -> In (a, y) l -> x = y.
Proof.
  induction l as [|e l IH]; simpl; intros N Hx Hy; [contradiction|].
  apply NoDup_cons_iff in N as [Hn N].
  destruct Hx as [-> | Hx], Hy as [Ey | Hy].
  - congruence.
  - exfalso. apply Hn. simpl. apply in_map_iff. now exists (a, y).
  - exfalso. apply Hn. subst e. simpl. apply in_map_iff. now exists (a, x).
  - auto.
Qed.

Lemma listing_ok_slash (l : list (string * bool)) (n : string) (k : bool) :
  listing_ok l -> In (n, k) l -> has_slash n = false.
Proof.
  intros [_ F] H. rewrite Forall_forall in F. apply (F _ H).
Qed.

Lemma name_at_file (tgt f : string) :
  has_slash f = false -> name_at tgt f (tgt ++ "/" ++ f).
Proof. intros H. exists f. split; [reflexivity | now apply first_comp_plain]. Qed.

Lemma name_at_file_dir (tgt f : string) :
  has_slash f = false -> name_at tgt f ((tgt ++ "/" ++ f) ++ "/").
Proof.
  intros H. exists (f ++ "/"). split; [now rewrite !append_assoc|].
  apply (first_comp_join f EmptyString H).
Qed.

(** On a disk whose listings are proper, the member names one call of
    [add_dir_to_target_dir] appends are pairwise distinct. *)
Lemma walk_fresh (os : disk) (limit : nat) :
  disk_ok os ->
  forall src tgt, clean tgt = true ->
    fresh (add_dir_to_target_dir os limit src tgt) (name_under tgt).
Proof.
  intros Hos. induction limit as [|limit IH]; intros src tgt Ht.
  - apply fresh_raise.
  - eapply fresh_ext; [intros w; apply add_dir_to_target_dir_S|].
    unfold one_level. apply fresh_after; [apply fresh_log|]. intros _.
    destruct (os src) as [[data|listing]|] eqn:E; try apply fresh_ret.
    pose proof (Hos _ _ E) as Hl. pose proof Hl as [N _].
    eapply fresh_mono;
      [|apply fresh_bind with
          (K1 := fun n => exists d, In d (dirs_of listing) /\ name_at tgt d n)
          (K2 := fun n => exists f, In f (nondirs_of listing) /\ name_at tgt f n)].
    + intros n [[d [_ H]] | [f [_ H]]]; eapply name_at_under; eassumption.
    + destruct (dirs_of listing) as [|d ds] eqn:Ed; [apply fresh_ret|].
      assert (Hd : In d (dirs_of listing)) by (rewrite Ed; now left).
      apply fresh_after; [apply fresh_print|]. intros _.
      apply in_dirs_of in Hd as [Hd Hn].
      eapply fresh_mono; [|apply IH; now apply clean_join].
      intros n H. exists d. split; [now left|].
      apply name_under_at; [|assumption]. eapply listing_ok_slash; eassumption.
    + intros _. apply fresh_for_each.
      * now apply NoDup_map_fst_filter.
      * intros f Hf. apply in_nondirs_of in Hf as [Hf Hn].
        pose proof (listing_ok_slash _ _ _ Hl Hf) as Hs.
        apply fresh_after; [apply fresh_print|]. intros _.
        apply fresh_write;
          [now apply clean_join | now apply name_at_file | now apply name_at_file_dir].
      * intros f f' n _ _. apply name_at_fun.
    + intros n [d [Hd H1]] [f [Hf H2]].
      pose proof (name_at_fun _ _ _ _ H1 H2). subst f.
      apply in_dirs_of in Hd as [Hd _]. apply in_nondirs_of in Hf as [Hf _].
      pose proof (NoDup_fst_fun _ _ _ _ N Hd Hf). discriminate.
Qed.

(** ** The inclusion list *)

Lemma inclusion_list_items (os : disk) (self : string) (limit : nat) (w : world) :
  inclusion_list os self limit w = for_each items (do_item os self limit) w.
Proof.
  unfold inclusion_list, items. cbn [for_each do_item].
  repeat (apply bind_ext; [reflexivity | intros _ ?]).
  symmetry. apply bind_unit_r.
Qed.

(** The prologue either ends normally, leaving [after_prologue], or ends
    by an exception before any archive is open. *)
Lemma prologue_cases (os : disk) (self : string) :
  prologue os self boot = (Ok tt, after_prologue self)
  \/ exists e w, prologue os self boot = (Raise e, w)
                 /\ zip_open w = false /\ zip_entries w = [] /\ stdout w = []
                 /\ exists made, calls w = (EvMkdir (self ++ "/build") :: made)%list
                               /\ (made = [] \/ made = [EvOpen (self ++ "/build/phantabular.xpi")]).
Proof.
  unfold prologue, Path_mkdir, ZipFile_open, bind, log, raise, ret, boot, after_prologue.
  cbn [zip_open zip_entries stdout calls app].
  destruct (os (self ++ "/build")) as [[data|listing]|].
  - right. do 2 eexists. repeat split. exists []. auto.
  - destruct (os (self ++ "/build/phantabular.xpi")) as [[data|listing']|];
      [now left | | now left].
    right. do 2 eexists. repeat split. eexists. split; [reflexivity | now right].
  - destruct (blocked os (self ++ "/build")).
    + right. do 2 eexists. repeat split. exists []. auto.
    + destruct (os (self ++ "/build/phantabular.xpi")) as [[data|listing']|];
        [now left | | now left].
      right. do 2 eexists. repeat split. eexists. split; [reflexivity | now right].
Qed.

Lemma package_run (os : disk) (self : string) (limit : nat) :
  package os self limit
  = match prologue os self boot with
    | (Ok _, w) => for_each items (do_item os self limit) w
    | (Raise e, w) => (Raise e, w)
    end.
Proof.
  unfold package, bind. destruct (prologue os self boot) as [[[]|e] w]; [|reflexivity].
  apply inclusion_list_items.
Qed.

Lemma package_items (os : disk) (self : string) (limit : nat) :
  fst (prologue os self boot) = Ok tt ->
  package os self limit = for_each items (do_item os self limit) (after_prologue self).
Proof.
  intros H. rewrite package_run.
  destruct (prologue_cases os self) as [E | [e [w [E _]]]]; rewrite E in *;
    [reflexivity | discriminate].
Qed.

Lemma package_failed (os : disk) (self : string) (limit : nat) :
  fst (prologue os self boot) <> Ok tt ->
  exists e w, package os self limit = (Raise e, w)
              /\ zip_open w = false /\ zip_entries w = [] /\ stdout w = []
              /\ exists made, calls w = (EvMkdir (self ++ "/build") :: made)%list
                            /\ (made = [] \/ made = [EvOpen (self ++ "/build/phantabular.xpi")]).
Proof.
  intros H. rewrite package_run.
  destruct (prologue_cases os self) as [E | [e [w [E R]]]]; rewrite E in *.
  - now contradiction H.
  - now exists e, w.
Qed.

Lemma prologue_done (os : disk) (self : string) :
  {fst (prologue os self boot) = Ok tt} + {fst (prologue os self boot) <> Ok tt}.
Proof.
  destruct (fst (prologue os self boot)) as [[]|e]; [now left | now right].
Qed.

Lemma item_eqb_eq (x y : item) : item_eqb x y = true -> x = y.
Proof.
  destruct x, y; simpl; intros H; try discriminate;
    apply String.eqb_eq in H; now subst.
Qed.

Lemma apart_sound (x y : item) (n : string) :
  apart x y = true -> pattern x n = true -> pattern y n = true -> False.
Proof.
  destruct x as [a|a], y as [c|c]; simpl; intros H Hx Hy.
  - apply andb_true_iff in H as [H1 H2]. apply negb_true_iff in H1, H2.
    destruct (starts_with_both _ _ _ Hx Hy); congruence.
  - apply andb_true_iff in H as [H1 H2]. apply negb_true_iff in H1, H2.
    apply orb_true_iff in Hy as [Hy|Hy]; apply String.eqb_eq in Hy; subst n; congruence.
  - apply andb_true_iff in H as [H1 H2]. apply negb_true_iff in H1, H2.
    apply orb_true_iff in Hx as [Hx|Hx]; apply String.eqb_eq in Hx; subst n; congruence.
  - repeat (apply andb_true_iff in H as [H ?]).
    repeat match goal with E : negb _ = true |- _ => apply negb_true_iff in E end.
    apply orb_true_iff in Hx as [Hx|Hx]; apply String.eqb_eq in Hx; subst n;
      apply orb_true_iff in Hy as [Hy|Hy]; congruence.
Qed.

Lemma all_apart_sound (l : list item) (x y : item) (n : string) :
  all_apart l = true -> In x l -> In y l ->
  pattern x n = true -> pattern y n = true -> x = y.
Proof.
  unfold all_apart. rewrite forallb_forall. intros H Hx Hy Px Py.
  specialize (H x Hx). rewrite forallb_forall in H. specialize (H y Hy).
  apply orb_true_iff in H as [H|H]; [now apply item_eqb_eq|].
  exfalso. eapply apart_sound; eassumption.
Qed.

Lemma items_NoDup : NoDup items.
Proof.
  unfold items. repeat (constructor; [simpl; intuition discriminate|]). constructor.
Qed.

Lemma pattern_dir (r n : string) : name_under r n -> pattern (IDir r) n = true.
Proof. intros [x ->]. unfold pattern. rewrite <- append_assoc. apply starts_with_app. Qed.

Lemma pattern_file (r : string) :
  pattern (IFile r) r = true /\ pattern (IFile r) (r ++ "/") = true.
Proof. simpl. rewrite !String.eqb_refl. split; [reflexivity | apply orb_true_r]. Qed.

Lemma item_call_dir (self r : string) (ev : event) :
  call_under (self ++ "/" ++ r) r ev -> item_call self (IDir r) ev.
Proof.
  destruct ev; simpl; try tauto.
  - intros [-> | [x ->]]; [now left | right]. exists x. now rewrite !append_assoc.
  - intros [x [-> ->]]. exists x. now rewrite !append_assoc.
Qed.

(** Every path of the inclusion list is clean. *)
Lemma items_clean (it : item) : In it items -> clean (item_name it) = true.
Proof.
  revert it. apply Forall_forall. unfold items.
  repeat (constructor; [reflexivity|]). constructor.
Qed.

Lemma item_emits (os : disk) (self : string) (limit : nat) (it : item) :
  In it items ->
  emits (do_item os self limit it) (fun n => pattern it n = true) (item_call self it).
Proof.
  intros Hit. apply items_clean in Hit. destruct it as [r|r]; simpl in *.
  - unfold add_dir. eapply emits_mono; [| apply item_call_dir | apply walk_emits].
    intros n Hn. apply pattern_dir. auto.
  - unfold add_file.
    apply emits_write_clean; [assumption | apply pattern_file | apply pattern_file |].
    simpl. auto.
Qed.

(** Any call of the list, whatever its argument, keeps the archive open and
    only appends. *)
Lemma item_emits_any (os : disk) (self : string) (limit : nat) (it : item) :
  emits (do_item os self limit it) (fun _ => True) (fun _ => True).
Proof.
  destruct it as [r|r]; simpl.
  - unfold add_dir. eapply emits_mono; [| | apply walk_emits]; auto.
  - unfold add_file. apply emits_write; auto.
Qed.

Lemma item_fresh (os : disk) (self : string) (limit : nat) (it : item) :
  disk_ok os -> In it items ->
  fresh (do_item os self limit it) (fun n => pattern it n = true).
Proof.
  intros Hos Hit. apply items_clean in Hit. destruct it as [r|r]; simpl in *.
  - unfold add_dir. eapply fresh_mono; [apply pattern_dir|]. now apply walk_fresh.
  - unfold add_file. apply fresh_write; [assumption | apply pattern_file..].
Qed.

(** The whole run: the archive stays open, and every call and every member
    name comes from an entry of the inclusion list. *)
Lemma package_emits (os : disk) (self : string) (limit : nat) :
  let w := snd (package os self limit) in
  (fst (prologue os self boot) = Ok tt -> zip_open w = true) /\
  exists pre nc, calls w = (pre ++ nc)%list /\ Forall startup_call pre /\
    Forall (listed_call self) nc /\ Forall listed_name (names w).
Proof.
  cbv zeta. destruct (prologue_done os self) as [Hp | Hp].
  - rewrite (package_items os self limit Hp).
    assert (H : emits (for_each items (do_item os self limit)) listed_name (listed_call self)).
    { apply emits_for_each. intros it Hit.
      eapply emits_mono; [| | apply item_emits; exact Hit].
      - intros n Hn. now exists it.
      - intros ev Hev. now exists it. }
    destruct (H (after_prologue self) eq_refl) as [Ho [ne [nc [He [Hc [F1 F2]]]]]].
    split; [auto|]. exists (calls (after_prologue self)), nc.
    split; [assumption|]. split; [repeat constructor|]. split; [assumption|].
    unfold names. rewrite He. assumption.
  - destruct (package_failed os self limit Hp)
      as [e [w [E [Ho [He [Hs [made [Hc Hm]]]]]]]].
    rewrite E. cbn [snd]. split; [intros H; contradiction|].
    exists (calls w), []. rewrite app_nil_r. split; [reflexivity|].
    split; [|split; [constructor|]].
    + rewrite Hc. destruct Hm as [-> | ->]; repeat constructor.
    + unfold names. rewrite He. constructor.
Qed.

Lemma package_fresh (os : disk) (self : string) (limit : nat) :
  disk_ok os -> NoDup (names (snd (package os self limit))).
Proof.
  intros Hos. destruct (prologue_done os self) as [Hp | Hp].
  - rewrite (package_items os self limit Hp).
    assert (H : fresh (for_each items (do_item os self limit))
                  (fun n => exists it, In it items /\ pattern it n = true)).
    { apply fresh_for_each.
      - apply items_NoDup.
      - intros it Hit. now apply item_fresh.
      - intros x y n. now apply all_apart_sound. }
    destruct (H (after_prologue self) eq_refl) as [_ [ne [He [N _]]]].
    unfold names. rewrite He. assumption.
  - destruct (package_failed os self limit Hp) as [e [w [E [_ [He _]]]]].
    rewrite E. unfold names. cbn [snd]. rewrite He. constructor.
Qed.

(** ** Disks given as trees *)

Lemma distinct_NoDup (l : list string) : distinct l = true -> NoDup l.
Proof.
  induction l as [|x l IH]; simpl; intros H; [constructor|].
  apply andb_true_iff in H as [H1 H2]. constructor; [|auto].
  intros Hin. apply negb_true_iff in H1.
  assert (E : existsb (String.eqb x) l = true)
    by (apply existsb_exists; exists x; split; [assumption | apply String.eqb_refl]).
  congruence.
Qed.

Lemma tree_ok_dir (children : list (string * tree)) :
  tree_ok (TDir children)
  = distinct (map fst children)
    && forallb (fun e => negb (has_slash (fst e))) children
    && children_ok children.
Proof.
  reflexivity.
Qed.

Lemma tree_find_ok (path : list string) :
  forall t t', tree_ok t = true -> tree_find path t = Some t' -> tree_ok t' = true.
Proof.
  induction path as [|c path IH]; intros t t' Hok Hf; simpl in Hf.
  - now injection Hf as <-.
  - destruct t as [data|children]; [discriminate|].
    rewrite tree_ok_dir in Hok. apply andb_true_iff in Hok as [_ Hok].
    induction children as [|[n ch] l IHl]; [discriminate|].
    simpl in Hok. apply andb_true_iff in Hok as [H1 H2].
    destruct (String.eqb n c); eauto.
Qed.

Lemma tree_ok_listing (children : list (string * tree)) :
  tree_ok (TDir children) = true ->
  listing_ok (map (fun e => (fst e, is_dir (snd e))) children).
Proof.
  rewrite tree_ok_dir. intros H.
  apply andb_true_iff in H as [H _]. apply andb_true_iff in H as [H1 H2].
  split.
  - rewrite map_map. simpl. now apply distinct_NoDup.
  - apply Forall_map. simpl. rewrite forallb_forall in H2. apply Forall_forall.
    intros e He. apply negb_true_iff. auto.
Qed.

Lemma disk_of_tree_ok (root : tree) : tree_ok root = true -> disk_ok (disk_of_tree root).
Proof.
  intros Hok p l. unfold disk_of_tree.
  destruct (tree_find (components p) root) as [[data|children]|] eqn:E;
    try discriminate.
  intros H. injection H as <-. apply tree_ok_listing.
  eapply tree_find_ok; eassumption.
Qed.

(** ** Two views of the disk that agree on what a run reads *)

Lemma blocked_from_agree (os1 os2 : disk) (rest : string) :
  forall pre,
    (forall q z, pre ++ rest = q ++ z -> os1 q = os2 q) ->
    blocked_from os1 pre rest = blocked_from os2 pre rest.
Proof.
  induction rest as [|c rest IH]; intros pre H; [reflexivity|].
  cbn [blocked_from]. rewrite (H pre (String c rest) eq_refl). f_equal.
  apply IH. intros q z E. apply (H q z). rewrite <- E. now rewrite append_assoc.
Qed.

Lemma write_agree (os1 os2 : disk) (f a : string) (w : world) :
  (forall q z, f = q ++ z -> os1 q = os2 q) ->
  ZipFile_write os1 f a w = ZipFile_write os2 f a w.
Proof.
  intros H. unfold ZipFile_write, stat_error, blocked.
  rewrite (blocked_from_agree os1 os2 f EmptyString) by exact H.
  rewrite (H f EmptyString) by (symmetry; apply append_nil_r). reflexivity.
Qed.

Lemma near_self (src : string) : near src src.
Proof. now exists EmptyString, EmptyString. Qed.

Lemma near_join (src d q : string) : near (src ++ "/" ++ d) q -> near src q.
Proof. intros [x [z E]]. exists (("/" ++ d) ++ x), z. now rewrite <- E, !append_assoc. Qed.

Lemma walk_agree (os1 os2 : disk) (limit : nat) :
  forall src tgt,
    (forall q, near src q -> os1 q = os2 q) ->
    forall w, add_dir_to_target_dir os1 limit src tgt w
              = add_dir_to_target_dir os2 limit src tgt w.
Proof.
  induction limit as [|limit IH]; intros src tgt H w; [reflexivity|].
  rewrite !add_dir_to_target_dir_S. unfold one_level.
  apply bind_ext; [reflexivity|]. intros _ w1.
  rewrite <- (H src) by apply near_self.
  destruct (os1 src) as [[data|listing]|]; try reflexivity.
  apply bind_ext.
  - destruct (dirs_of listing) as [|d ds]; [reflexivity|].
    apply bind_ext; [reflexivity|]. intros _ w2. apply IH.
    intros q Hq. apply H. now apply near_join with (d := d).
  - intros _ w2. apply for_each_ext. intros f w3 _.
    apply bind_ext; [reflexivity|]. intros _ w4. apply write_agree.
    intros q z E. apply H. exists ("/" ++ f), z. exact E.
Qed.

Lemma starts_with_cancel (a x y : string) :
  starts_with (a ++ x) (a ++ y) = starts_with x y.
Proof.
  induction a as [|c a IH]; [reflexivity|]. cbn [append starts_with].
  now rewrite Ascii.eqb_refl, IH.
Qed.

Lemma starts_with_longer (p s z : string) :
  starts_with p s = true -> starts_with p (s ++ z) = true.
Proof.
  intros H. apply starts_with_inv in H as [x ->]. rewrite append_assoc.
  apply starts_with_app.
Qed.

Lemma items_not_build (it : item) :
  In it items -> forall x, starts_with "build" (item_name it ++ x) = false.
Proof.
  revert it.
  apply (proj1 (Forall_forall
                  (fun it => forall x, starts_with "build" (item_name it ++ x) = false)
                  items)).
  unfold items. repeat (constructor; [intros x; reflexivity|]). constructor.
Qed.

(** Nothing a call of the list reads lies at or below the output
    directory. *)
Lemma near_item_not_build (self : string) (it : item) (q : string) :
  In it items -> near (self ++ "/" ++ item_name it) q ->
  starts_with (self ++ "/build") q = false.
Proof.
  intros Hit [x [z E]].
  destruct (starts_with (self ++ "/build") q) eqn:S; [|reflexivity].
  apply starts_with_longer with (z := z) in S. rewrite <- E in S.
  rewrite !append_assoc in S. rewrite starts_with_cancel in S.
  change (starts_with "build" (item_name it ++ x) = true) in S.
  now rewrite (items_not_build it Hit x) in S.
Qed.

Lemma item_agree (os1 os2 : disk) (self : string) (limit : nat) (it : item) :
  (forall p, starts_with (self ++ "/build") p = false -> os1 p = os2 p) ->
  In it items ->
  forall w, do_item os1 self limit it w = do_item os2 self limit it w.
Proof.
  intros H Hit w. destruct it as [r|r]; cbn [do_item].
  - unfold add_dir. apply walk_agree. intros q Hq. apply H.
    now apply (near_item_not_build self (IDir r)).
  - unfold add_file. apply write_agree. intros q z E. apply H.
    apply (near_item_not_build self (IFile r)); [assumption|].
    exists EmptyString, z. cbn [item_name]. now rewrite append_nil_r.
Qed.

(** ** The disk a run leaves behind *)

Lemma package_agree (os1 os2 : disk) (self : string) (limit : nat) :
  (forall p, starts_with (self ++ "/build") p = false -> os1 p = os2 p) ->
  prologue os1 self boot = prologue os2 self boot ->
  package os1 self limit = package os2 self limit.
Proof.
  intros H Hp. rewrite !package_run, <- Hp.
  destruct (prologue os1 self boot) as [[[]|e] w]; [|reflexivity].
  apply for_each_ext. intros it w' Hit. now apply item_agree.
Qed.

Lemma with_output_agree (os : disk) (self : string) (archive : bytes) (p : string) :
  starts_with (self ++ "/build") p = false -> with_output os self archive p = os p.
Proof.
  intros Hp. unfold with_output.
  destruct (String.eqb_spec p (self ++ "/build/phantabular.xpi")) as [->|_].
  - change (self ++ "/build/phantabular.xpi")
      with (self ++ "/build" ++ "/phantabular.xpi") in Hp.
    rewrite <- append_assoc, starts_with_app in Hp. discriminate.
  - destruct (String.eqb_spec p (self ++ "/build")) as [->|_]; [|reflexivity].
    rewrite <- (append_nil_r (self ++ "/build")) in Hp at 2.
    rewrite starts_with_app in Hp. discriminate.
Qed.

Lemma with_output_prologue (os : disk) (self : string) (archive : bytes) :
  fst (prologue os self boot) = Ok tt ->
  prologue (with_output os self archive) self boot = prologue os self boot.
Proof.
  intros H.
  destruct (prologue_cases os self) as [E | [e [w [E _]]]]; rewrite E in *;
    [|discriminate].
  assert (N : String.eqb (self ++ "/build") (self ++ "/build/phantabular.xpi") = false).
  { apply String.eqb_neq. intros Heq. apply append_inv_head in Heq. discriminate. }
  unfold prologue, Path_mkdir, ZipFile_open, bind, log, raise, ret, boot,
    after_prologue, with_output.
  rewrite N, !String.eqb_refl. reflexivity.
Qed.

(** * The claims *)

Lemma items_relative (it : item) :
  In it items ->
  relative (item_name it) = true /\ forall y, relative (item_name it ++ y) = true.
Proof.
  revert it. apply Forall_forall. unfold items.
  repeat (constructor; [split; [reflexivity | intros y; reflexivity]|]). constructor.
Qed.

Lemma listed_call_from_self (self : string) (ev : event) :
  listed_call self ev -> from_self self ev.
Proof.
  intros [it [Hit H]]. destruct (items_relative it Hit) as [R1 R2].
  destruct it as [r|r], ev; simpl in *; try tauto.
  - destruct H as [-> | [x ->]]; [now exists r|]. exists (r ++ "/" ++ x). auto.
  - destruct H as [x [-> ->]]. auto.
  - destruct H as [-> ->]. auto.
Qed.

Lemma listed_call_mirrored (self : string) (ev : event) :
  listed_call self ev -> mirrored self ev.
Proof.
  intros H. apply listed_call_from_self in H. destruct ev; simpl in *; tauto.
Qed.

Lemma listed_call_open (self : string) (ev : event) :
  listed_call self ev -> ev <> EvClose.
Proof. intros [it [_ H]] ->. destruct it; exact H. Qed.

Lemma for_each_raises {A} (xs : list A) (body : A -> M unit) (x : A) :
  (forall y, In y xs -> emits (body y) (fun _ => True) (fun _ => True)) ->
  In x xs ->
  (forall w, zip_open w = true -> exists e, fst (body x w) = Raise e) ->
  forall w, zip_open w = true -> exists e, fst (for_each xs body w) = Raise e.
Proof.
  induction xs as [|y xs IH]; intros Hem Hin Hr w Hw; [contradiction|].
  simpl. unfold bind. destruct Hin as [-> | Hin].
  - destruct (Hr w Hw) as [e He].
    destruct (body x w) as [[[]|e'] w1]; simpl in He; [discriminate|].
    now exists e'.
  - pose proof (Hem y (or_introl eq_refl) w Hw) as [Ho _].
    destruct (body y w) as [[[]|e'] w1]; simpl in Ho; [|now exists e'].
    apply IH; auto. intros z Hz. apply Hem. now right.
Qed.

(** C1. The claim fails on the code.  In a checkout whose [archive]
    directory holds [a.js] and two subdirectories, [sub/b.js] and
    [lib/c.js], the call [add_dir("archive")] ends normally and archives
    [archive/sub/b.js] and [archive/a.js] only: the regular file
    [lib/c.js], reachable from the directory, is left out, because the
    directory loop stops after the first subdirectory; [lib] is not even
    scanned. *)
Theorem add_dir_skips_second_subdirectory :
  (exists t, tree_find ["proj"; "archive"] proj_two_subdirs = Some t
             /\ In "lib/c.js" (files_below t))
  /\ disk_of_tree proj_two_subdirs "/proj/archive/lib/c.js" = Some (RegFile (b "C"))
  /\ fst (add_dir (disk_of_tree proj_two_subdirs) "/proj" 1000 "archive" opened) = Ok tt
  /\ names (snd (add_dir (disk_of_tree proj_two_subdirs) "/proj" 1000 "archive" opened))
     = ["archive/sub/b.js"; "archive/a.js"]
  /\ ~ In "archive/lib/c.js"
         (names (snd (add_dir (disk_of_tree proj_two_subdirs) "/proj" 1000 "archive" opened)))
  /\ ~ In (EvScandir "/proj/archive/lib")
         (calls (snd (add_dir (disk_of_tree proj_two_subdirs) "/proj" 1000 "archive" opened))).
Proof.
  split; [|split; [|split; [|split; [|split]]]].
  - eexists. split; [reflexivity|]. simpl. tauto.
  - reflexivity.
  - vm_compute. reflexivity.
  - vm_compute. reflexivity.
  - vm_compute. intuition discriminate.
  - vm_compute. intuition discriminate.
Qed.

(** C2 (as amended). [add_file] on a path that names nothing raises the
    error of [os.stat] and adds nothing to the archive: [FileNotFoundError],
    or [NotADirectoryError] when a regular file stands where the path
    needs a directory.  When the path is one of the files of the inclusion
    list, the whole run ends by an exception.  [add_dir] on a path that
    names nothing raises nothing and adds nothing: the walk yields no
    directory. *)
Theorem missing_sources (os : disk) (self r : string) (limit : nat) (w : world) :
  os (self ++ "/" ++ r) = None ->
  zip_open w = true ->
  (fst (add_file os self r w)
   = Raise (if blocked os (self ++ "/" ++ r)
            then NotADirectoryError (self ++ "/" ++ r)
            else FileNotFoundError (self ++ "/" ++ r))
   /\ zip_entries (snd (add_file os self r w)) = zip_entries w)
  /\ (In (IFile r) items -> exists e, fst (package os self limit) = Raise e)
  /\ (fst (add_dir os self (S limit) r w) = Ok tt
      /\ zip_entries (snd (add_dir os self (S limit) r w)) = zip_entries w).
Proof.
  intros H Hw.
  assert (Hf : forall w0, zip_open w0 = true ->
             fst (add_file os self r w0)
             = Raise (if blocked os (self ++ "/" ++ r)
                      then NotADirectoryError (self ++ "/" ++ r)
                      else FileNotFoundError (self ++ "/" ++ r))
             /\ zip_entries (snd (add_file os self r w0)) = zip_entries w0).
  { intros w0 Hw0. unfold add_file, ZipFile_write. rewrite Hw0.
    unfold bind, log. rewrite H. unfold stat_error, raise.
    destruct (blocked os (self ++ "/" ++ r)); split; reflexivity. }
  split; [now apply Hf|]. split.
  - intros Hin. destruct (prologue_done os self) as [Hp | Hp].
    + rewrite (package_items os self limit Hp).
      apply for_each_raises with (x := IFile r); [| assumption | | reflexivity].
      * intros it _. apply item_emits_any.
      * intros w0 Hw0. eexists. apply (Hf w0 Hw0).
    + destruct (package_failed os self limit Hp) as [e [w0 [E _]]].
      exists e. now rewrite E.
  - unfold add_dir. rewrite add_dir_to_target_dir_S.
    unfold one_level, bind, log. rewrite H. split; reflexivity.
Qed.

Lemma missing_sources_witness :
  disk_of_tree proj_small ("/proj" ++ "/" ++ "manifest.json") = None
  /\ zip_open opened = true
  /\ (fst (add_file (disk_of_tree proj_small) "/proj" "manifest.json" opened)
       = Raise (FileNotFoundError ("/proj" ++ "/" ++ "manifest.json"))
      /\ zip_entries (snd (add_file (disk_of_tree proj_small) "/proj" "manifest.json" opened))
         = zip_entries opened)
  /\ (In (IFile "manifest.json") items ->
      exists e, fst (package (disk_of_tree proj_small) "/proj" 1000) = Raise e)
  /\ (fst (add_dir (disk_of_tree proj_small) "/proj" 1001 "manifest.json" opened) = Ok tt
      /\ zip_entries (snd (add_dir (disk_of_tree proj_small) "/proj" 1001 "manifest.json" opened))
         = zip_entries opened).
Proof.
  split; [reflexivity|]. split; [reflexivity|].
  apply (missing_sources (disk_of_tree proj_small) "/proj" "manifest.json" 1000 opened);
    reflexivity.
Defined.

(** Where [deps] is a regular file, [deps/dexie/LICENSE] names nothing and
    the error is [NotADirectoryError]. *)
Example license_behind_regular_file :
  disk_of_tree proj_deps_file "/proj/deps/dexie/LICENSE" = None
  /\ fst (add_file (disk_of_tree proj_deps_file) "/proj" "deps/dexie/LICENSE" opened)
     = Raise (NotADirectoryError "/proj/deps/dexie/LICENSE").
Proof. split; reflexivity. Qed.

(** C2 (as stated) fails: in a checkout without the [archive] directory,
    which the inclusion list names in its first [add_dir] call, the run
    ends normally. *)
Lemma missing_directory_goes_unreported :
  In (IDir "archive") items
  /\ disk_of_tree proj_no_archive ("/proj" ++ "/" ++ "archive") = None
  /\ fst (package (disk_of_tree proj_no_archive) "/proj" 1000) = Ok tt.
Proof.
  split; [simpl; tauto|]. split; [reflexivity|]. vm_compute. reflexivity.
Qed.

(** C3 (as amended). [add_file] on an existing regular file, the archive
    being open, appends exactly one member with the contents of
    [self_dirname/relative_path]; its name is what the archive library
    makes of the argument ([os.path.normpath], leading slashes taken off).
    For a clean argument (file names joined by single slashes, as every
    path of the inclusion list is) that name is the argument itself. *)
Theorem add_file_one_entry (os : disk) (self r : string) (data : bytes) (w : world) :
  os (self ++ "/" ++ r) = Some (RegFile data) ->
  zip_open w = true ->
  (forall n, zip_arcname r = Some n ->
     fst (add_file os self r w) = Ok tt
     /\ zip_entries (snd (add_file os self r w)) = (zip_entries w ++ [(n, data)])%list)
  /\ (clean r = true ->
      fst (add_file os self r w) = Ok tt
      /\ zip_entries (snd (add_file os self r w)) = (zip_entries w ++ [(r, data)])%list).
Proof.
  intros H Hw.
  assert (Hn : forall n, zip_arcname r = Some n ->
     fst (add_file os self r w) = Ok tt
     /\ zip_entries (snd (add_file os self r w)) = (zip_entries w ++ [(n, data)])%list).
  { intros n E. unfold add_file, ZipFile_write. rewrite Hw.
    unfold bind, log. rewrite H, E. split; reflexivity. }
  split; [exact Hn|].
  intros Hc. apply Hn. now apply clean_zip_arcname.
Qed.

Lemma add_file_one_entry_witness :
  disk_of_tree proj_full ("/proj" ++ "/" ++ "manifest.json") = Some (RegFile (b "{}"))
  /\ zip_open opened = true
  /\ clean "manifest.json" = true
  /\ fst (add_file (disk_of_tree proj_full) "/proj" "manifest.json" opened) = Ok tt
  /\ zip_entries (snd (add_file (disk_of_tree proj_full) "/proj" "manifest.json" opened))
     = (zip_entries opened ++ [("manifest.json", b "{}")])%list.
Proof.
  split; [reflexivity|]. split; [reflexivity|]. split; [reflexivity|].
  apply (add_file_one_entry (disk_of_tree proj_full) "/proj" "manifest.json" (b "{}") opened);
    reflexivity.
Defined.

(** Where the library's clean-up leaves nothing of the argument, as for
    [add_file("/")], which names the script's directory, the call raises
    [IndexError] and appends nothing. *)
Lemma add_file_nothing_left (os : disk) (self r : string) (found : fsobj) (w : world) :
  os (self ++ "/" ++ r) = Some found ->
  zip_open w = true ->
  zip_arcname r = None ->
  fst (add_file os self r w) = Raise IndexError
  /\ zip_entries (snd (add_file os self r w)) = zip_entries w.
Proof.
  intros H Hw E. unfold add_file, ZipFile_write. rewrite Hw.
  unfold bind, log. rewrite H, E. split; reflexivity.
Qed.

(** C3 (as stated) fails: [add_file("deps//dexie/LICENSE")] in a complete
    checkout reads the licence and appends one member, but the member is
    named [deps/dexie/LICENSE], not [deps//dexie/LICENSE]. *)
Lemma add_file_name_not_verbatim :
  disk_of_tree proj_full ("/proj" ++ "/" ++ "deps//dexie/LICENSE") = Some (RegFile (b "L1"))
  /\ zip_entries (snd (add_file (disk_of_tree proj_full) "/proj" "deps//dexie/LICENSE" opened))
     = [("deps/dexie/LICENSE", b "L1")]
  /\ ~ (zip_entries (snd (add_file (disk_of_tree proj_full) "/proj"
                           "deps//dexie/LICENSE" opened))
        = (zip_entries opened ++ [("deps//dexie/LICENSE", b "L1")])%list).
Proof.
  split; [reflexivity|]. split; [reflexivity|].
  intros E. vm_compute in E. discriminate E.
Qed.

(** C4. Where the source directory holds the regular file [a.js] and the
    directory [sub], listed in either order, and [sub] holds the regular
    file [b.js] only, [add_dir_to_target_dir(source, "archive")] ends
    normally and appends two members and no more, [archive/sub/b.js] and
    [archive/a.js], each with its file's bytes.  [add_dir("archive")] is
    this call with [self_dirname/archive] for the source. *)
Theorem add_directory_archive_scenario (os : disk) (src : string) (limit : nat)
    (l : list (string * bool)) (da db : bytes) (w : world) :
  zip_open w = true ->
  l = [("a.js", false); ("sub", true)] \/ l = [("sub", true); ("a.js", false)] ->
  os src = Some (Directory l) ->
  os (src ++ "/a.js") = Some (RegFile da) ->
  os (src ++ "/sub") = Some (Directory [("b.js", false)]) ->
  os ((src ++ "/sub") ++ "/b.js") = Some (RegFile db) ->
  fst (add_dir_to_target_dir os (S (S limit)) src "archive" w) = Ok tt
  /\ zip_entries (snd (add_dir_to_target_dir os (S (S limit)) src "archive" w))
     = (zip_entries w ++ [("archive/sub/b.js", db); ("archive/a.js", da)])%list.
Proof.
  intros Hw Hl H1 H2 H3 H4.
  assert (Hd : dirs_of l = ["sub"]) by (destruct Hl; subst l; reflexivity).
  assert (Hf : nondirs_of l = ["a.js"]) by (destruct Hl; subst l; reflexivity).
  assert (E : exists w', add_dir_to_target_dir os (S (S limit)) src "archive" w = (Ok tt, w')
              /\ zip_entries w'
                 = (zip_entries w ++ [("archive/sub/b.js", db); ("archive/a.js", da)])%list).
  { eexists. split.
    - rewrite add_dir_to_target_dir_S. unfold one_level.
      unfold bind at 1. unfold log at 1. cbv beta iota.
      rewrite H1, Hd, Hf. cbn [for_each].
      unfold bind at 1. unfold bind at 1. unfold print at 1. cbv beta iota.
      rewrite add_dir_to_target_dir_S. unfold one_level.
      unfold bind at 1. unfold log at 1. cbv beta iota.
      change (src ++ "/" ++ "sub") with (src ++ "/sub"). rewrite H3.
      change (dirs_of [("b.js", false)]) with (@nil string).
      change (nondirs_of [("b.js", false)]) with ["b.js"]. cbn [for_each].
      change ((src ++ "/sub") ++ "/" ++ "b.js") with ((src ++ "/sub") ++ "/b.js").
      change (src ++ "/" ++ "a.js") with (src ++ "/a.js").
      unfold ZipFile_write, bind, ret, print, log, append_entry.
      cbn [zip_open zip_entries stdout calls fst snd]. rewrite Hw, H4.
      repeat match goal with
             | |- context [zip_arcname ?a] =>
                 let v := eval vm_compute in (zip_arcname a) in
                 change (zip_arcname a) with v
             end.
      cbn [zip_open zip_entries stdout calls fst snd]. rewrite H2.
      reflexivity.
    - cbn [zip_entries]. rewrite <- app_assoc. reflexivity. }
  destruct E as [w' [-> E]]. split; [reflexivity | exact E].
Qed.

Lemma add_directory_archive_scenario_witness :
  zip_open opened = true
  /\ ([("a.js", false); ("sub", true)] = [("a.js", false); ("sub", true)]
      \/ [("a.js", false); ("sub", true)] = [("sub", true); ("a.js", false)])
  /\ disk_of_tree proj_small "/proj/archive"
     = Some (Directory [("a.js", false); ("sub", true)])
  /\ disk_of_tree proj_small "/proj/archive/a.js" = Some (RegFile (b "A"))
  /\ disk_of_tree proj_small "/proj/archive/sub" = Some (Directory [("b.js", false)])
  /\ disk_of_tree proj_small "/proj/archive/sub/b.js" = Some (RegFile (b "B"))
  /\ fst (add_dir (disk_of_tree proj_small) "/proj" 2 "archive" opened) = Ok tt
  /\ zip_entries (snd (add_dir (disk_of_tree proj_small) "/proj" 2 "archive" opened))
     = (zip_entries opened ++ [("archive/sub/b.js", b "B"); ("archive/a.js", b "A")])%list.
Proof.
  split; [reflexivity|]. split; [left; reflexivity|].
  repeat (split; [reflexivity|]).
  apply (add_directory_archive_scenario (disk_of_tree proj_small) "/proj/archive" 0
           [("a.js", false); ("sub", true)] (b "A") (b "B") opened);
    solve [reflexivity | left; reflexivity].
Defined.

(** C10. [add_dir] on a path that names a regular file, as [LICENSE] does
    in the inclusion list, ends normally, appends nothing to the archive
    and prints nothing: the file is not packaged and nothing reports it. *)
Theorem add_dir_on_regular_file (os : disk) (self r : string) (data : bytes)
    (limit : nat) (w : world) :
  os (self ++ "/" ++ r) = Some (RegFile data) ->
  fst (add_dir os self (S limit) r w) = Ok tt
  /\ zip_entries (snd (add_dir os self (S limit) r w)) = zip_entries w
  /\ stdout (snd (add_dir os self (S limit) r w)) = stdout w.
Proof.
  intros H. unfold add_dir. rewrite add_dir_to_target_dir_S.
  unfold one_level, bind, log. rewrite H. repeat split.
Qed.

Lemma add_dir_on_regular_file_witness :
  In (IDir "LICENSE") items
  /\ disk_of_tree proj_full ("/proj" ++ "/" ++ "LICENSE") = Some (RegFile (b "L0"))
  /\ fst (add_dir (disk_of_tree proj_full) "/proj" 1000 "LICENSE" opened) = Ok tt
  /\ zip_entries (snd (add_dir (disk_of_tree proj_full) "/proj" 1000 "LICENSE" opened))
     = zip_entries opened
  /\ stdout (snd (add_dir (disk_of_tree proj_full) "/proj" 1000 "LICENSE" opened))
     = stdout opened.
Proof.
  split; [simpl; tauto|]. split; [reflexivity|].
  apply (add_dir_on_regular_file (disk_of_tree proj_full) "/proj" "LICENSE" (b "L0") 999 opened).
  reflexivity.
Defined.

(** C5 (as amended). Every file the run writes is archived under exactly
    the path it has below the script's directory: a member [a] is read from
    [self_dirname/a].  No entry of the inclusion list is remapped; the
    dexie distribution directory keeps its path [deps/dexie/dist]. *)
Theorem archive_layout_mirrors_sources (os : disk) (self : string) (limit : nat) :
  Forall (mirrored self) (calls (snd (package os self limit))).
Proof.
  destruct (package_emits os self limit) as [_ [pre [nc [Hc [Fp [F _]]]]]]. rewrite Hc.
  apply Forall_app. split.
  - eapply Forall_impl; [|exact Fp]. intros [] H; simpl in *; tauto.
  - eapply Forall_impl; [apply listed_call_mirrored | exact F].
Qed.

(** C5 (as stated) fails: in a complete checkout the file
    [deps/dexie/dist/dexie.js] is archived under that very path, and under
    no shorter one. *)
Lemma dexie_dist_not_shortened :
  In (EvWrite "/proj/deps/dexie/dist/dexie.js" "deps/dexie/dist/dexie.js")
     (calls (snd (package (disk_of_tree proj_full) "/proj" 1000)))
  /\ ~ (exists a, In (EvWrite "/proj/deps/dexie/dist/dexie.js" a)
                    (calls (snd (package (disk_of_tree proj_full) "/proj" 1000)))
                 /\ String.length a < String.length "deps/dexie/dist/dexie.js").
Proof.
  remember (calls (snd (package (disk_of_tree proj_full) "/proj" 1000))) as made eqn:E.
  vm_compute in E. subst made. split.
  - simpl. tauto.
  - intros [a [Hin Hlt]]. simpl in Hin.
    repeat (destruct Hin as [Hin|Hin]; [try discriminate Hin|]); try contradiction.
    injection Hin as <-. simpl in Hlt. lia.
Qed.

(** C6. After the whole run, whether it ended normally or by an exception,
    no two members of the archive have the same name, provided directory
    listings are what [os.scandir] returns: distinct names without
    slashes. *)
Theorem archive_names_unique (os : disk) (self : string) (limit : nat) :
  disk_ok os -> NoDup (names (snd (package os self limit))).
Proof. apply package_fresh. Qed.

Lemma archive_names_unique_witness :
  disk_ok (disk_of_tree proj_full)
  /\ NoDup (names (snd (package (disk_of_tree proj_full) "/proj" 1000))).
Proof.
  split.
  - apply disk_of_tree_ok. reflexivity.
  - apply archive_names_unique. apply disk_of_tree_ok. reflexivity.
Defined.

(** C7. Every path the run reads, by scanning a directory or by writing a
    file into the archive, is [self_dirname] followed by a slash and a
    relative path; no path is handed to the operating system as it stands
    in the inclusion list.  The name a file is archived under is that
    relative path. *)
Theorem sources_resolved_from_self_dirname (os : disk) (self : string) (limit : nat) :
  Forall (from_self self) (calls (snd (package os self limit))).
Proof.
  destruct (package_emits os self limit) as [_ [pre [nc [Hc [Fp [F _]]]]]]. rewrite Hc.
  apply Forall_app. split.
  - eapply Forall_impl; [|exact Fp]. intros [] H; simpl in *; tauto.
  - eapply Forall_impl; [apply listed_call_from_self | exact F].
Qed.

(** C8. Two runs on disks that are the same everywhere except at or below
    the output directory [self_dirname/build], which is all a run changes,
    and on which the first two statements of the script end the same way,
    end the same way and leave the same world behind: the same members, in
    the same order, with the same bytes, and the same output.  In
    particular, once a run has made [build] and opened the archive, a
    second run over the unchanged source tree, which finds [build] and the
    archive of the first, does what the first did.  (A run that fails
    before that, at a regular file named [build] say, leaves the disk as
    it was.) *)
Theorem package_deterministic (os1 os2 : disk) (self : string) (limit : nat)
    (archive : bytes) :
  ((forall p, starts_with (self ++ "/build") p = false -> os1 p = os2 p) ->
   prologue os1 self boot = prologue os2 self boot ->
   package os1 self limit = package os2 self limit)
  /\ (fst (prologue os1 self boot) = Ok tt ->
      package (with_output os1 self archive) self limit = package os1 self limit).
Proof.
  split.
  - apply package_agree.
  - intros Hp. apply package_agree.
    + intros p. apply with_output_agree.
    + now apply with_output_prologue.
Qed.

Lemma package_deterministic_witness :
  ((forall p, starts_with ("/proj" ++ "/build") p = false ->
              disk_of_tree proj_full p
              = with_output (disk_of_tree proj_full) "/proj" (b "PK") p)
   /\ prologue (disk_of_tree proj_full) "/proj" boot
      = prologue (with_output (disk_of_tree proj_full) "/proj" (b "PK")) "/proj" boot
   /\ package (disk_of_tree proj_full) "/proj" 1000
      = package (with_output (disk_of_tree proj_full) "/proj" (b "PK")) "/proj" 1000)
  /\ (fst (prologue (disk_of_tree proj_full) "/proj" boot) = Ok tt
      /\ package (with_output (disk_of_tree proj_full) "/proj" (b "PK")) "/proj" 1000
         = package (disk_of_tree proj_full) "/proj" 1000).
Proof.
  assert (H : forall p, starts_with ("/proj" ++ "/build") p = false ->
             disk_of_tree proj_full p
             = with_output (disk_of_tree proj_full) "/proj" (b "PK") p).
  { intros p Hp. unfold with_output.
    destruct (String.eqb_spec p ("/proj" ++ "/build/phantabular.xpi")) as [->|_];
      [discriminate Hp|].
    destruct (String.eqb_spec p ("/proj" ++ "/build")) as [->|_];
      [discriminate Hp|].
    reflexivity. }
  assert (Hp : prologue (disk_of_tree proj_full) "/proj" boot
               = prologue (with_output (disk_of_tree proj_full) "/proj" (b "PK"))
                   "/proj" boot) by reflexivity.
  assert (Hs : fst (prologue (disk_of_tree proj_full) "/proj" boot) = Ok tt)
    by reflexivity.
  split.
  - split; [exact H|]. split; [exact Hp|].
    exact (proj1 (package_deterministic (disk_of_tree proj_full)
                    (with_output (disk_of_tree proj_full) "/proj" (b "PK"))
                    "/proj" 1000 (b "PK")) H Hp).
  - split; [exact Hs|].
    exact (proj2 (package_deterministic (disk_of_tree proj_full)
                    (disk_of_tree proj_full) "/proj" 1000 (b "PK")) Hs).
Defined.

(** C9. The run never closes the archive: the handle is open after the
    prologue and after every call of the inclusion list; when the run ends,
    normally or not, it is open if the first two statements of the script
    created it (when [mkdir] or [ZipFile(...)] fails there is no handle);
    and no close was ever issued. *)
Theorem archive_never_closed (os : disk) (self : string) (limit : nat) :
  (forall k, zip_open (snd (for_each (firstn k items) (do_item os self limit)
                              (after_prologue self))) = true)
  /\ zip_open (snd (package os self limit))
     = match fst (prologue os self boot) with Ok _ => true | Raise _ => false end
  /\ ~ In EvClose (calls (snd (package os self limit))).
Proof.
  split; [|split].
  - intros k.
    assert (H : emits (for_each (firstn k items) (do_item os self limit))
                  (fun _ => True) (fun _ => True)).
    { apply emits_for_each. intros it _. apply item_emits_any. }
    now destruct (H (after_prologue self) eq_refl).
  - destruct (prologue_done os self) as [Hp|Hp].
    + destruct (package_emits os self limit) as [Ho _]. now rewrite (Ho Hp), Hp.
    + destruct (package_failed os self limit Hp) as [e [w [E [Ho _]]]].
      rewrite E. cbn [snd]. rewrite Ho.
      destruct (fst (prologue os self boot)) as [[]|e']; [now contradiction Hp | reflexivity].
  - destruct (package_emits os self limit) as [_ [pre [nc [Hc [Fp [F _]]]]]]. rewrite Hc.
    intros Hin. apply in_app_or in Hin as [Hin|Hin].
    + rewrite Forall_forall in Fp. exact (Fp _ Hin).
    + rewrite Forall_forall in F. now apply (listed_call_open self _ (F _ Hin)).
Qed.

(** * Further properties of the script *)

(** ** Members hold the bytes of their sources *)

Lemma adds_ext {A} (m m' : M A) P : (forall w, m w = m' w) -> adds m' P -> adds m P.
Proof. intros E H w Hw. rewrite E. now apply H. Qed.

Lemma adds_mono {A} (m : M A) (P Q : string * bytes -> Prop) :
  (forall e, P e -> Q e) -> adds m P -> adds m Q.
Proof.
  intros HPQ H w Hw. destruct (H w Hw) as [Ho [ne [He F]]].
  split; [assumption|]. exists ne. split; [assumption|].
  eapply Forall_impl; [apply HPQ | assumption].
Qed.

Lemma adds_quiet {A} (m : M A) P :
  (forall w, zip_open (snd (m w)) = zip_open w /\ zip_entries (snd (m w)) = zip_entries w) ->
  adds m P.
Proof.
  intros H w Hw. destruct (H w) as [Ho He]. split; [congruence|].
  exists []. rewrite app_nil_r. split; [assumption | constructor].
Qed.

Lemma adds_bind {A B} (m : M A) (k : A -> M B) P :
  adds m P -> (forall a, adds (k a) P) -> adds (bind m k) P.
Proof.
  intros Hm Hk w Hw. specialize (Hm w Hw). unfold bind.
  destruct (m w) as [[a|e] w1]; simpl in Hm; [|exact Hm].
  destruct Hm as [Ho [ne [He F]]].
  destruct (Hk a w1 Ho) as [Ho' [ne' [He' F']]].
  split; [assumption|]. exists (ne ++ ne')%list.
  rewrite He', He, <- app_assoc. split; [reflexivity|]. apply Forall_app. auto.
Qed.

Lemma adds_for_each {A} (xs : list A) (body : A -> M unit) P :
  (forall x, In x xs -> adds (body x) P) -> adds (for_each xs body) P.
Proof.
  induction xs as [|x xs IH]; intros H; simpl.
  - apply adds_quiet. now intros w.
  - apply adds_bind; [apply H; now left|].
    intros _. apply IH. intros y Hy. apply H. now right.
Qed.

Lemma adds_write (os : disk) (f a : string) (P : string * bytes -> Prop) :
  (forall n e, zip_arcname a = Some n -> holds os f n e -> P e) ->
  adds (ZipFile_write os f a) P.
Proof.
  intros HP w Hw. unfold ZipFile_write. rewrite Hw.
  unfold bind, log, append_entry, raise.
  destruct (os f) as [found|] eqn:E;
    [destruct (zip_arcname a) as [n|]; [destruct found as [data|listing]|]|];
    simpl; (split; [assumption|]).
  - exists [(n, data)]. split; [reflexivity|]. constructor; [|constructor].
    apply (HP n); [reflexivity|]. left. now exists data.
  - exists [(n ++ "/", [])]. split; [reflexivity|]. constructor; [|constructor].
    apply (HP n); [reflexivity|]. right. now exists listing.
  - exists []. rewrite app_nil_r. split; [reflexivity | constructor].
  - exists []. rewrite app_nil_r. split; [reflexivity | constructor].
Qed.

Lemma adds_write_clean (os : disk) (f a : string) (P : string * bytes -> Prop) :
  clean a = true -> (forall e, holds os f a e -> P e) -> adds (ZipFile_write os f a) P.
Proof.
  intros Ha HP. apply adds_write. intros n e E.
  rewrite (clean_zip_arcname a Ha) in E. injection E as <-. apply HP.
Qed.

Lemma walk_adds (os : disk) (limit : nat) :
  forall src tgt,
    adds (add_dir_to_target_dir os limit src tgt)
         (fun e => clean tgt = true ->
                   exists x, holds os (src ++ "/" ++ x) (tgt ++ "/" ++ x) e).
Proof.
  induction limit as [|limit IH]; intros src tgt.
  - apply adds_quiet. now intros w.
  - eapply adds_ext; [intros w; apply add_dir_to_target_dir_S|].
    unfold one_level. apply adds_bind; [apply adds_quiet; now intros w|]. intros _.
    destruct (os src) as [[data|listing]|]; try (apply adds_quiet; now intros w).
    apply adds_bind.
    + destruct (dirs_of listing) as [|d ds] eqn:Ed; [apply adds_quiet; now intros w|].
      apply first_dir_name in Ed.
      apply adds_bind; [apply adds_quiet; now intros w|]. intros _.
      eapply adds_mono; [|apply IH]. intros e He Ht.
      destruct (He (clean_join _ _ Ht Ed)) as [x H].
      exists (d ++ "/" ++ x). rewrite !append_assoc in H. exact H.
    + intros _. apply adds_for_each. intros f Hf.
      apply in_nondirs_of in Hf as [_ Hf].
      apply adds_bind; [apply adds_quiet; now intros w|]. intros _.
      apply adds_write. intros n e E H Ht.
      rewrite (clean_zip_arcname _ (clean_join _ _ Ht Hf)) in E. injection E as <-.
      now exists f.
Qed.

Lemma item_adds (os : disk) (self : string) (limit : nat) (it : item) :
  In it items -> adds (do_item os self limit it) (faithful os self).
Proof.
  intros Hit. apply items_clean in Hit. destruct it as [r|r]; simpl in *.
  - unfold add_dir. eapply adds_mono; [|apply walk_adds].
    intros e He. destruct (He Hit) as [x H].
    exists (r ++ "/" ++ x). rewrite !append_assoc in H. exact H.
  - unfold add_file. apply adds_write_clean; [assumption|]. intros e H. now exists r.
Qed.

Lemma for_each_adds_any {A} (xs : list A) (body : A -> M unit) :
  (forall y, In y xs -> adds (body y) (fun _ => True)) ->
  adds (for_each xs body) (fun _ => True).
Proof. apply adds_for_each. Qed.

(** When a loop ends normally, each of its iterations did, and what an
    iteration left in the archive is still at the front of it. *)
Lemma for_each_ok_inv {A} (xs : list A) (body : A -> M unit) (x : A) :
  (forall y, In y xs -> adds (body y) (fun _ => True)) ->
  In x xs ->
  forall w, zip_open w = true -> fst (for_each xs body w) = Ok tt ->
  exists w1, zip_open w1 = true /\ fst (body x w1) = Ok tt /\
    exists rest, zip_entries (snd (for_each xs body w))
                 = (zip_entries (snd (body x w1)) ++ rest)%list.
Proof.
  induction xs as [|y xs IH]; intros Had Hin w Hw Hok; [contradiction|].
  simpl in *. unfold bind in *.
  pose proof (Had y (or_introl eq_refl) w Hw) as [Ho _].
  assert (Hrest : adds (for_each xs body) (fun _ => True))
    by (apply for_each_adds_any; intros z Hz; apply Had; now right).
  destruct Hin as [-> | Hin].
  - exists w. destruct (body x w) as [[[]|e] w1]; simpl in *; [|discriminate].
    split; [assumption|]. split; [reflexivity|].
    destruct (Hrest w1 Ho) as [_ [ne [He _]]]. now exists ne.
  - destruct (body y w) as [[[]|e] w1]; simpl in *; [|discriminate].
    apply IH; [intros z Hz; apply Had; now right | assumption..].
Qed.

Lemma item_adds_any (os : disk) (self : string) (limit : nat) (it : item) :
  adds (do_item os self limit it) (fun _ => True).
Proof.
  destruct it as [r|r]; simpl.
  - unfold add_dir. eapply adds_mono; [|apply walk_adds]. auto.
  - unfold add_file. apply adds_write. auto.
Qed.

(** X1. Whatever the disk, the recursion limit and the archive so far, a
    call of [add_dir_to_target_dir(source, target)] on an open archive,
    with a clean target (file names joined by single slashes, which the
    archive library keeps as they are), only appends: the members already
    there keep their place.  Each member it appends is [target/x] with the
    bytes of the regular file [source/x], for some relative path [x] (or
    the empty member [target/x/] when [source/x] is a directory). *)
Theorem add_dir_to_target_dir_appends_sources (os : disk) (limit : nat)
    (src tgt : string) (w : world) :
  clean tgt = true ->
  zip_open w = true ->
  exists ne,
    zip_entries (snd (add_dir_to_target_dir os limit src tgt w))
    = (zip_entries w ++ ne)%list
    /\ Forall (fun e => exists x, holds os (src ++ "/" ++ x) (tgt ++ "/" ++ x) e) ne.
Proof.
  intros Ht Hw. destruct (walk_adds os limit src tgt w Hw) as [_ [ne [He F]]].
  exists ne. split; [exact He|].
  eapply Forall_impl; [|exact F]. intros e H. exact (H Ht).
Qed.

Lemma add_dir_to_target_dir_appends_sources_witness :
  clean "archive" = true
  /\ zip_open opened = true
  /\ exists ne,
       zip_entries (snd (add_dir_to_target_dir (disk_of_tree proj_small) 1000
                           "/proj/archive" "archive" opened))
       = (zip_entries opened ++ ne)%list
       /\ Forall (fun e => exists x,
                    holds (disk_of_tree proj_small)
                          ("/proj/archive" ++ "/" ++ x) ("archive" ++ "/" ++ x) e) ne.
Proof.
  split; [reflexivity|]. split; [reflexivity|].
  apply (add_dir_to_target_dir_appends_sources (disk_of_tree proj_small) 1000
           "/proj/archive" "archive" opened); reflexivity.
Defined.

(** X2. At the end of a run, normal or not, every member of the archive
    holds the bytes of the file of the same name below the script's
    directory: a member [a] has the contents of [self_dirname/a] (and a
    member [a/] is empty and stands for the directory [self_dirname/a]). *)
Theorem archive_members_faithful (os : disk) (self : string) (limit : nat) :
  Forall (faithful os self) (zip_entries (snd (package os self limit))).
Proof.
  destruct (prologue_done os self) as [Hp|Hp].
  - rewrite (package_items os self limit Hp).
    assert (H : adds (for_each items (do_item os self limit)) (faithful os self))
      by (apply adds_for_each; intros it Hit; now apply item_adds).
    destruct (H (after_prologue self) eq_refl) as [_ [ne [He F]]].
    rewrite He. exact F.
  - destruct (package_failed os self limit Hp) as [e [w [E [_ [Hz _]]]]].
    rewrite E. cbn [snd]. rewrite Hz. constructor.
Qed.

(** X3. When the run ends normally, every file named by an [add_file] call
    of the inclusion list exists and is a member of the archive under
    exactly that name with its bytes (a directory in its place gives the
    empty member [name/]). *)
Theorem listed_files_archived (os : disk) (self : string) (limit : nat) (r : string) :
  fst (package os self limit) = Ok tt ->
  In (IFile r) items ->
  match os (self ++ "/" ++ r) with
  | Some (RegFile data) => In (r, data) (zip_entries (snd (package os self limit)))
  | Some (Directory _) => In (r ++ "/", []) (zip_entries (snd (package os self limit)))
  | None => False
  end.
Proof.
  intros Hok Hin.
  assert (Hp : fst (prologue os self boot) = Ok tt).
  { destruct (prologue_done os self) as [Hp|Hp]; [exact Hp|].
    destruct (package_failed os self limit Hp) as [e [w [E _]]].
    rewrite E in Hok. discriminate. }
  rewrite (package_items os self limit Hp) in *.
  destruct (for_each_ok_inv items (do_item os self limit) (IFile r)
              (fun it _ => item_adds_any os self limit it) Hin
              (after_prologue self) eq_refl Hok)
    as [w1 [Hw1 [Hr [rest He]]]].
  rewrite He. clear He Hok. cbn [do_item] in Hr |- *.
  pose proof (clean_zip_arcname r (items_clean (IFile r) Hin)) as Hn.
  unfold add_file, ZipFile_write in *. rewrite Hw1 in *.
  unfold bind, log, append_entry, raise in *. cbv zeta in *.
  rewrite Hn in *.
  destruct (os (self ++ "/" ++ r)) as [[data|listing]|];
    cbn [fst snd zip_entries] in *.
  - apply in_or_app. left. apply in_or_app. right. now left.
  - apply in_or_app. left. apply in_or_app. right. now left.
  - discriminate.
Qed.

Lemma listed_files_archived_witness :
  fst (package (disk_of_tree proj_full) "/proj" 1000) = Ok tt
  /\ In (IFile "manifest.json") items
  /\ In ("manifest.json", b "{}")
        (zip_entries (snd (package (disk_of_tree proj_full) "/proj" 1000))).
Proof.
  assert (H1 : fst (package (disk_of_tree proj_full) "/proj" 1000) = Ok tt)
    by (vm_compute; reflexivity).
  assert (H2 : In (IFile "manifest.json") items) by (simpl; tauto).
  split; [exact H1|]. split; [exact H2|].
  exact (listed_files_archived (disk_of_tree proj_full) "/proj" 1000 "manifest.json" H1 H2).
Defined.

(** X4. The archive never holds anything the inclusion list does not name:
    at the end of a run every member name is one of the listed files or
    lies below one of the listed directories.  The script itself, the
    [build] directory and the rest of the checkout stay out. *)
Theorem only_listed_names_archived (os : disk) (self : string) (limit : nat) :
  forallb listed (names (snd (package os self limit))) = true.
Proof.
  apply forallb_forall. intros n Hn.
  destruct (package_emits os self limit) as [_ [pre [nc [_ [_ [_ F]]]]]].
  rewrite Forall_forall in F. destruct (F n Hn) as [it [Hit Hp]].
  unfold listed. apply existsb_exists. now exists it.
Qed.

(** ** Paths into a tree *)












(** ** A walk over a tree *)













(** ** Trees with one subdirectory per directory *)




















(** ** Later subdirectories *)

Lemma touches_name_at (src d : string) (ev : event) :
  has_slash d = false -> touches (src ++ "/" ++ d) ev ->
  exists q, ev_path ev = Some q /\ name_at src d q.
Proof.
  intros Hd [q [E H]]. exists q. split; [assumption|].
  destruct H as [-> | [x ->]].
  - now apply name_at_file.
  - apply name_under_at; [assumption | now exists x].
Qed.

Lemma call_under_name_at (src tgt d : string) (ev : event) (q : string) :
  has_slash d = false ->
  call_under (src ++ "/" ++ d) tgt ev -> ev_path ev = Some q -> name_at src d q.
Proof.
  intros Hd H E. destruct ev; simpl in *; try discriminate; injection E as <-.
  - destruct H as [-> | [x ->]].
    + now apply name_at_file.
    + apply name_under_at; [assumption | now exists x].
  - destruct H as [x [-> _]]. apply name_under_at; [assumption | now exists x].
Qed.

Lemma append_longer (s y : string) (c : ascii) : s <> s ++ String c y.
Proof.
  intros E. rewrite <- (append_nil_r s) in E at 1. apply append_inv_head in E.
  discriminate.
Qed.

Lemma not_touches_self (src d : string) : ~ touches (src ++ "/" ++ d) (EvScandir src).
Proof.
  intros [q [E [H | [x H]]]]; simpl in E; injection E as <-.
  - exact (append_longer _ _ _ H).
  - rewrite append_assoc in H. exact (append_longer _ _ _ H).
Qed.

Lemma walk_spares (os : disk) (limit : nat) (src tgt : string)
    (l : list (string * bool)) (d d' : string) (ds : list string) :
  disk_ok os ->
  os src = Some (Directory l) ->
  dirs_of l = d :: ds ->
  In d' ds ->
  emits (add_dir_to_target_dir os limit src tgt) (fun _ => True)
        (fun ev => ~ touches (src ++ "/" ++ d') ev).
Proof.
  intros Hos Hsrc Hdirs Hin.
  pose proof (Hos _ _ Hsrc) as Hl. pose proof Hl as [N _].
  assert (Hd : In (d, true) l) by (apply in_dirs_of; rewrite Hdirs; now left).
  assert (Hd' : In (d', true) l) by (apply in_dirs_of; rewrite Hdirs; now right).
  pose proof (listing_ok_slash _ _ _ Hl Hd) as Sd.
  pose proof (listing_ok_slash _ _ _ Hl Hd') as Sd'.
  assert (Hne : d <> d').
  { intros ->.
    pose proof (NoDup_map_fst_filter (fun e => snd e && file_name_ok (fst e)) l N) as N'.
    fold (dirs_of l) in N'. rewrite Hdirs in N'. apply NoDup_cons_iff in N' as [N' _].
    contradiction. }
  destruct limit as [|limit]; [apply emits_raise|].
  eapply emits_ext; [intros w; apply add_dir_to_target_dir_S|].
  unfold one_level. rewrite Hsrc, Hdirs.
  apply emits_bind; [apply emits_log; apply not_touches_self|]. intros _.
  apply emits_bind.
  - apply emits_bind; [apply emits_print|]. intros _.
    eapply emits_mono; [| |apply walk_emits]; [auto|].
    intros ev Hev Ht. apply touches_name_at in Ht as [q [E Hq]]; [|assumption].
    pose proof (call_under_name_at _ _ _ _ _ Sd Hev E) as Hq'.
    apply Hne. eapply name_at_fun; eassumption.
  - intros _. apply emits_for_each. intros f Hf.
    apply emits_bind; [apply emits_print|]. intros _.
    apply emits_write; [now split|].
    intros Ht. apply touches_name_at in Ht as [q [E Hq]]; [|assumption].
    simpl in E. injection E as <-.
    apply in_nondirs_of in Hf as [Hf _]. pose proof (listing_ok_slash _ _ _ Hl Hf) as Sf.
    pose proof (name_at_fun _ _ _ _ Hq (name_at_file src f Sf)). subst f.
    pose proof (NoDup_fst_fun _ _ _ _ N Hd' Hf). discriminate.
Qed.

(** ** No directory is scanned twice *)

Lemma scans_app (l1 l2 : list event) : scans (l1 ++ l2) = (scans l1 ++ scans l2)%list.
Proof. apply flat_map_app. Qed.

Lemma scans_fresh_ext {A} (m m' : M A) K :
  (forall w, m w = m' w) -> scans_fresh m' K -> scans_fresh m K.
Proof. intros E H w. rewrite E. apply H. Qed.

Lemma scans_fresh_mono {A} (m : M A) (K K' : string -> Prop) :
  (forall p, K p -> K' p) -> scans_fresh m K -> scans_fresh m K'.
Proof.
  intros HK H w. destruct (H w) as [nc [Hc [N F]]]. exists nc.
  repeat split; try assumption. eapply Forall_impl; [apply HK | assumption].
Qed.

Lemma scans_fresh_still {A} (m : M A) K :
  (forall w, calls (snd (m w)) = calls w) -> scans_fresh m K.
Proof.
  intros H w. exists []. rewrite app_nil_r. repeat split; [apply H | constructor | constructor].
Qed.

Lemma scans_fresh_log (p : string) (K : string -> Prop) :
  K p -> scans_fresh (log (EvScandir p)) K.
Proof.
  intros HK w. exists [EvScandir p]. simpl. repeat split; repeat constructor; auto.
Qed.

Lemma scans_fresh_write (os : disk) (f a : string) K : scans_fresh (ZipFile_write os f a) K.
Proof.
  intros w. unfold ZipFile_write. destruct (zip_open w).
  - exists [EvWrite f a]. unfold bind, log, append_entry, raise.
    destruct (os f) as [[data|listing]|]; [destruct (zip_arcname a)..|];
      simpl; repeat split; constructor.
  - exists []. simpl. rewrite app_nil_r. repeat split; constructor.
Qed.

Lemma scans_fresh_bind {A B} (m : M A) (k : A -> M B) (K1 K2 : string -> Prop) :
  scans_fresh m K1 -> (forall a, scans_fresh (k a) K2) ->
  (forall p, K1 p -> K2 p -> False) ->
  scans_fresh (bind m k) (fun p => K1 p \/ K2 p).
Proof.
  intros Hm Hk Hd w. specialize (Hm w). unfold bind.
  destruct (m w) as [[a|e] w1]; simpl in Hm; destruct Hm as [nc [Hc [N F]]].
  - destruct (Hk a w1) as [nc' [Hc' [N' F']]]. exists (nc ++ nc')%list.
    rewrite Hc', Hc, <- app_assoc, scans_app. repeat split.
    + apply NoDup_app; try assumption. intros p H1 H2.
      rewrite Forall_forall in F, F'. eauto.
    + apply Forall_app. split; (eapply Forall_impl; [|eassumption]); simpl; auto.
  - exists nc. simpl. repeat split; try assumption.
    eapply Forall_impl; [|eassumption]. simpl; auto.
Qed.

Lemma scans_fresh_none {A B} (m : M A) (k : A -> M B) (K : string -> Prop) :
  scans_fresh m (fun _ => False) -> (forall a, scans_fresh (k a) K) ->
  scans_fresh (bind m k) K.
Proof.
  intros Hm Hk. eapply scans_fresh_mono; [|apply scans_fresh_bind; eauto]; simpl; tauto.
Qed.

Lemma scans_fresh_then_none {A B} (m : M A) (k : A -> M B) (K : string -> Prop) :
  scans_fresh m K -> (forall a, scans_fresh (k a) (fun _ => False)) ->
  scans_fresh (bind m k) K.
Proof.
  intros Hm Hk. eapply scans_fresh_mono; [|apply scans_fresh_bind; eauto]; simpl; tauto.
Qed.

Lemma scans_fresh_for_each {A} (xs : list A) (body : A -> M unit) (K : A -> string -> Prop) :
  NoDup xs ->
  (forall x, In x xs -> scans_fresh (body x) (K x)) ->
  (forall x y p, In x xs -> In y xs -> K x p -> K y p -> x = y) ->
  scans_fresh (for_each xs body) (fun p => exists x, In x xs /\ K x p).
Proof.
  induction xs as [|x xs IH]; intros N Hb Hd; simpl.
  - apply scans_fresh_still. now intros w.
  - apply NoDup_cons_iff in N as [Hx N].
    eapply scans_fresh_mono; [|apply scans_fresh_bind with (K1 := K x)
                                 (K2 := fun p => exists y, In y xs /\ K y p)].
    + intros p [H | [y [Hy H]]]; [exists x | exists y]; simpl; auto.
    + apply Hb. now left.
    + intros _. apply IH; [assumption | |].
      * intros y Hy. apply Hb. now right.
      * intros y z p Hy Hz. apply Hd; now right.
    + intros p H1 [y [Hy H2]]. apply Hx.
      assert (x = y) by (apply (Hd x y p); simpl; auto). now subst.
Qed.

Lemma scans_fresh_quiet_loop {A} (xs : list A) (body : A -> M unit) :
  (forall x, scans_fresh (body x) (fun _ => False)) ->
  scans_fresh (for_each xs body) (fun _ => False).
Proof.
  intros H. induction xs as [|x xs IH]; simpl.
  - apply scans_fresh_still. now intros w.
  - apply scans_fresh_none; auto.
Qed.

(** A walk scans its source and directories below it, none of them twice. *)
Lemma walk_scans_fresh (os : disk) (limit : nat) :
  forall src tgt,
    scans_fresh (add_dir_to_target_dir os limit src tgt)
                (fun p => p = src \/ exists x, p = src ++ "/" ++ x).
Proof.
  induction limit as [|limit IH]; intros src tgt.
  - apply scans_fresh_still. now intros w.
  - eapply scans_fresh_ext; [intros w; apply add_dir_to_target_dir_S|].
    unfold one_level.
    apply scans_fresh_bind with (K1 := fun p => p = src)
                                (K2 := fun p => exists x, p = src ++ "/" ++ x).
    + now apply scans_fresh_log.
    + intros _. destruct (os src) as [[data|listing]|];
        try (apply scans_fresh_still; now intros w).
      apply scans_fresh_then_none.
      * destruct (dirs_of listing) as [|d ds]; [apply scans_fresh_still; now intros w|].
        apply scans_fresh_none; [apply scans_fresh_still; now intros w|]. intros _.
        eapply scans_fresh_mono; [|apply IH].
        intros p [-> | [x ->]]; [now exists d|].
        exists (d ++ "/" ++ x). now rewrite !append_assoc.
      * intros _. apply scans_fresh_quiet_loop. intros f.
        apply scans_fresh_none; [apply scans_fresh_still; now intros w|]. intros _.
        apply scans_fresh_write.
    + intros p -> [x H]. exact (append_longer _ _ _ H).
Qed.

Lemma item_scans_fresh (os : disk) (self : string) (limit : nat) (it : item) :
  scans_fresh (do_item os self limit it) (scan_pattern self it).
Proof.
  destruct it as [r|r]; simpl.
  - unfold add_dir. eapply scans_fresh_mono; [|apply walk_scans_fresh].
    intros p [-> | [x ->]]; [now left | right]. exists x. now rewrite !append_assoc.
  - unfold add_file. apply scans_fresh_write.
Qed.

Lemma scan_pattern_pattern (self : string) (it : item) (p : string) :
  scan_pattern self it p ->
  exists n, p = self ++ "/" ++ n /\ (pattern it (n ++ "/") = true).
Proof.
  destruct it as [r|r]; simpl; [|contradiction].
  intros [-> | [x ->]].
  - exists r. split; [reflexivity|].
    rewrite <- (append_nil_r (r ++ "/")) at 2. apply starts_with_app.
  - exists (r ++ "/" ++ x). split; [reflexivity|].
    replace ((r ++ "/" ++ x) ++ "/") with ((r ++ "/") ++ x ++ "/")
      by now rewrite !append_assoc.
    apply starts_with_app.
Qed.

Lemma item_scans_apart (self : string) (x y : item) (p : string) :
  In x items -> In y items ->
  scan_pattern self x p -> scan_pattern self y p -> x = y.
Proof.
  intros Hx Hy Px Py.
  apply scan_pattern_pattern in Px as [n [-> Pn]].
  apply scan_pattern_pattern in Py as [n' [E Pn']].
  apply append_inv_head in E. simpl in E. injection E as <-.
  now apply (all_apart_sound items x y (n ++ "/")).
Qed.

(** X8. Where listings are proper, a call of [add_dir_to_target_dir] on a
    directory reads nothing of any subdirectory listed after the first
    one: it neither scans such a subdirectory or anything below it, nor
    writes a file from below it. *)
Theorem later_subdirectories_untouched (os : disk) (limit : nat) (src tgt : string)
    (l : list (string * bool)) (d d' : string) (ds : list string) (w : world) :
  disk_ok os ->
  os src = Some (Directory l) ->
  dirs_of l = d :: ds ->
  In d' ds ->
  zip_open w = true ->
  exists nc,
    calls (snd (add_dir_to_target_dir os limit src tgt w)) = (calls w ++ nc)%list
    /\ Forall (fun ev => ~ touches (src ++ "/" ++ d') ev) nc.
Proof.
  intros Hos Hsrc Hdirs Hin Hw.
  destruct (walk_spares os limit src tgt l d d' ds Hos Hsrc Hdirs Hin w Hw)
    as [_ [ne [nc [_ [Hc [_ F]]]]]].
  now exists nc.
Qed.

Lemma later_subdirectories_untouched_witness :
  disk_ok (disk_of_tree proj_two_subdirs)
  /\ disk_of_tree proj_two_subdirs "/proj/archive"
     = Some (Directory [("a.js", false); ("sub", true); ("lib", true)])
  /\ dirs_of [("a.js", false); ("sub", true); ("lib", true)] = "sub" :: ["lib"]
  /\ In "lib" ["lib"]
  /\ zip_open opened = true
  /\ exists nc,
       calls (snd (add_dir_to_target_dir (disk_of_tree proj_two_subdirs) 1000
                     "/proj/archive" "archive" opened))
       = (calls opened ++ nc)%list
       /\ Forall (fun ev => ~ touches ("/proj/archive" ++ "/" ++ "lib") ev) nc.
Proof.
  assert (H : disk_ok (disk_of_tree proj_two_subdirs))
    by (apply disk_of_tree_ok; reflexivity).
  split; [exact H|]. split; [reflexivity|]. split; [reflexivity|].
  split; [simpl; tauto|]. split; [reflexivity|].
  apply (later_subdirectories_untouched (disk_of_tree proj_two_subdirs) 1000
           "/proj/archive" "archive" [("a.js", false); ("sub", true); ("lib", true)]
           "sub" "lib" ["lib"] opened H);
    solve [reflexivity | simpl; tauto].
Defined.

(** X9. Whatever the disk, no path is handed to [os.scandir] twice in a
    run: a walk goes down one chain of directories, the walker never
    descends on its own, and the directories of the inclusion list do not
    contain one another.  The statement is about the path strings the run
    scans; two different paths that name one directory through a symbolic
    link are outside it. *)
Theorem no_directory_scanned_twice (os : disk) (self : string) (limit : nat) :
  NoDup (scans (calls (snd (package os self limit)))).
Proof.
  destruct (prologue_done os self) as [Hp|Hp].
  2:{ destruct (package_failed os self limit Hp) as [e [w [E [_ [_ [_ [made [Hc Hm]]]]]]]].
      rewrite E. cbn [snd]. rewrite Hc.
      destruct Hm as [-> | ->]; cbn; constructor. }
  rewrite (package_items os self limit Hp).
  assert (H : scans_fresh (for_each items (do_item os self limit))
                (fun p => exists it, In it items /\ scan_pattern self it p)).
  { apply scans_fresh_for_each.
    - apply items_NoDup.
    - intros it _. apply item_scans_fresh.
    - intros x y p. apply item_scans_apart. }
  destruct (H (after_prologue self)) as [nc [Hc [N _]]].
  rewrite Hc, scans_app. exact N.
Qed.

(** ** What is printed *)

Lemma tells_ext {A} (m m' : M A) : (forall w, m w = m' w) -> tells m' -> tells m.
Proof. intros E H w Hw. rewrite E. now apply H. Qed.

Lemma tells_still {A} (m : M A) :
  (forall w, zip_open (snd (m w)) = zip_open w /\ stdout (snd (m w)) = stdout w
             /\ calls (snd (m w)) = calls w) ->
  tells m.
Proof.
  intros H w Hw. destruct (H w) as [Ho [Hs Hc]]. split; [congruence|].
  exists [], []. rewrite !app_nil_r. auto.
Qed.

Lemma tells_bind {A B} (m : M A) (k : A -> M B) :
  tells m -> (forall a, tells (k a)) -> tells (bind m k).
Proof.
  intros Hm Hk w Hw. specialize (Hm w Hw). unfold bind.
  destruct (m w) as [[a|e] w1]; simpl in Hm; [|exact Hm].
  destruct Hm as [Ho [ns [nc [Hs [Hc E]]]]].
  destruct (Hk a w1 Ho) as [Ho' [ns' [nc' [Hs' [Hc' E']]]]].
  split; [assumption|]. exists (ns ++ ns')%list, (nc ++ nc')%list.
  rewrite Hs', Hc', Hs, Hc, <- !app_assoc. repeat split.
  unfold file_lines in *. now rewrite filter_app, flat_map_app, E, E'.
Qed.

Lemma tells_for_each {A} (xs : list A) (body : A -> M unit) :
  (forall x, tells (body x)) -> tells (for_each xs body).
Proof.
  intros H. induction xs as [|x xs IH]; simpl.
  - apply tells_still. now intros w.
  - apply tells_bind; auto.
Qed.

Lemma tells_scan (p : string) : tells (log (EvScandir p)).
Proof.
  intros w Hw. split; [assumption|]. exists [], [EvScandir p]. simpl.
  rewrite app_nil_r. auto.
Qed.

Lemma tells_dir_line (source target : string) : tells (print (dir_line source target)).
Proof.
  intros w Hw. split; [assumption|]. exists [dir_line source target], []. simpl.
  rewrite app_nil_r. auto.
Qed.

Lemma tells_file (os : disk) (f a : string) :
  tells (print (file_line f a) ;; ZipFile_write os f a).
Proof.
  intros w Hw.
  assert (L : file_lines [file_line f a] = flat_map announce [EvWrite f a]).
  { unfold file_lines. cbn [filter flat_map announce].
    unfold file_line at 1. now rewrite starts_with_app. }
  unfold bind, print, ZipFile_write, log, append_entry, raise.
  cbn [fst snd zip_open zip_entries stdout calls]. rewrite Hw.
  destruct (os f) as [[data|listing]|]; [destruct (zip_arcname a)..|];
    cbn [fst snd zip_open stdout calls];
    (split; [first [assumption | reflexivity]|]);
    exists [file_line f a], [EvWrite f a]; auto.
Qed.

Lemma walk_tells (os : disk) (limit : nat) :
  forall src tgt, tells (add_dir_to_target_dir os limit src tgt).
Proof.
  induction limit as [|limit IH]; intros src tgt.
  - apply tells_still. now intros w.
  - eapply tells_ext; [intros w; apply add_dir_to_target_dir_S|].
    unfold one_level. apply tells_bind; [apply tells_scan|]. intros _.
    destruct (os src) as [[data|listing]|]; try (apply tells_still; now intros w).
    apply tells_bind.
    + destruct (dirs_of listing) as [|d ds]; [apply tells_still; now intros w|].
      apply tells_bind; [apply tells_dir_line|]. intros _. apply IH.
    + intros _. apply tells_for_each. intros f. apply tells_file.
Qed.

(** ** Members in the order of the list *)

Lemma Forall2_nothing {A B} (P : A -> list B -> Prop) (xs : list A) :
  (forall x, P x []) -> Forall2 P xs (map (fun _ => []) xs).
Proof. intros H. induction xs; simpl; constructor; auto. Qed.

Lemma concat_nothing {A B} (xs : list A) : concat (map (fun _ => @nil B) xs) = [].
Proof. induction xs; simpl; auto. Qed.

Lemma nth_nothing {A B} (xs : list A) (n : nat) :
  nth n (map (fun _ => @nil B) xs) [] = [].
Proof. revert n. induction xs as [|x xs IH]; intros [|n]; simpl; auto. Qed.

(** The names a loop appends come in one group per element; the groups of
    elements the loop did not reach are empty. *)
Lemma for_each_grouped {A} (xs : list A) (body : A -> M unit) (K : A -> string -> Prop) :
  (forall x, In x xs -> emits (body x) (K x) (fun _ => True)) ->
  forall w, zip_open w = true ->
  exists groups,
    names (snd (for_each xs body w)) = (names w ++ concat groups)%list
    /\ Forall2 (fun x g => Forall (K x) g) xs groups
    /\ forall done x rest, xs = (done ++ x :: rest)%list ->
         fst (for_each done body w) <> Ok tt -> nth (List.length done) groups [] = [].
Proof.
  induction xs as [|x xs IH]; intros H w Hw.
  - exists []. simpl. rewrite app_nil_r. split; [reflexivity|]. split; [constructor|].
    intros done y rest E. destruct done; discriminate.
  - destruct (H x (or_introl eq_refl) w Hw) as [Ho [ne [nc [He [_ [F _]]]]]].
    cbn [for_each]. unfold bind at 1.
    destruct (body x w) as [[[]|e] w1] eqn:Eb; cbn [snd] in *.
    + destruct (IH (fun y Hy => H y (or_intror Hy)) w1 Ho) as [groups [E [G R]]].
      exists (map fst ne :: groups). split; [|split; [constructor; assumption|]].
      * rewrite E. unfold names. rewrite He, map_app. simpl. now rewrite app_assoc.
      * intros done y rest Ex Hf. destruct done as [|d done]; [now contradiction Hf|].
        simpl in Ex. injection Ex as <- Ex. cbn [for_each] in Hf. unfold bind at 1 in Hf.
        rewrite Eb in Hf. simpl. exact (R done y rest Ex Hf).
    + exists (map fst ne :: map (fun _ => []) xs). split; [|split].
      * unfold names. rewrite He, map_app. simpl. now rewrite concat_nothing, app_nil_r.
      * constructor; [assumption|]. apply Forall2_nothing. constructor.
      * intros done y rest Ex Hf. destruct done as [|d done]; [now contradiction Hf|].
        simpl. apply nth_nothing.
Qed.

(** X10. A call of [add_dir_to_target_dir] on an open archive announces
    every write it makes, and nothing but those: the [Writing file] lines
    it prints are, in order, exactly the lines naming source and target of
    the [ZipFile.write] calls it makes. *)
Theorem walk_announces_every_write (os : disk) (limit : nat) (src tgt : string)
    (w : world) :
  zip_open w = true ->
  exists ns nc,
    stdout (snd (add_dir_to_target_dir os limit src tgt w)) = (stdout w ++ ns)%list
    /\ calls (snd (add_dir_to_target_dir os limit src tgt w)) = (calls w ++ nc)%list
    /\ file_lines ns = flat_map announce nc.
Proof. intros Hw. now destruct (walk_tells os limit src tgt w Hw). Qed.

Lemma walk_announces_every_write_witness :
  zip_open opened = true
  /\ exists ns nc,
       stdout (snd (add_dir_to_target_dir (disk_of_tree proj_small) 1000
                      "/proj/archive" "archive" opened))
       = (stdout opened ++ ns)%list
       /\ calls (snd (add_dir_to_target_dir (disk_of_tree proj_small) 1000
                        "/proj/archive" "archive" opened))
          = (calls opened ++ nc)%list
       /\ file_lines ns = flat_map announce nc.
Proof.
  split; [reflexivity|].
  apply (walk_announces_every_write (disk_of_tree proj_small) 1000
           "/proj/archive" "archive" opened).
  reflexivity.
Defined.

(** X11. The members of the archive come grouped by the calls of the
    inclusion list, in the order of the list: the member names are the
    concatenation of one group per call, and every name of a group is one
    that call produces (below its directory for [add_dir], the file itself
    for [add_file]).  Calls a failed run did not reach have empty groups:
    when the script's start followed by the calls before some call does
    not end normally, the group of that call is empty. *)
Theorem members_grouped_in_list_order (os : disk) (self : string) (limit : nat) :
  exists groups,
    names (snd (package os self limit)) = concat groups
    /\ Forall2 (fun it g => Forall (fun n => pattern it n = true) g) items groups
    /\ forall done it rest, items = (done ++ it :: rest)%list ->
         fst ((prologue os self ;; for_each done (do_item os self limit)) boot) <> Ok tt ->
         nth (List.length done) groups [] = [].
Proof.
  destruct (prologue_done os self) as [Hp|Hp].
  - rewrite (package_items os self limit Hp).
    destruct (for_each_grouped items (do_item os self limit)
                (fun it n => pattern it n = true)) with (w := after_prologue self)
      as [groups [E [G R]]].
    + intros it Hit. eapply emits_mono; [| |apply item_emits; exact Hit]; auto.
    + reflexivity.
    + exists groups. split; [exact E|]. split; [exact G|].
      intros done it rest Ex Hf. apply (R done it rest Ex).
      unfold bind in Hf.
      destruct (prologue_cases os self) as [Epro | [e [w [Epro _]]]]; rewrite Epro in *.
      * exact Hf.
      * discriminate.
  - destruct (package_failed os self limit Hp) as [e [w [E [_ [Hz _]]]]].
    exists (map (fun _ => []) items). rewrite E. unfold names. cbn [snd]. rewrite Hz.
    rewrite concat_nothing. split; [reflexivity|].
    split; [apply Forall2_nothing; constructor|].
    intros done it rest _ _. apply nth_nothing.
Qed.

Lemma members_grouped_in_list_order_witness :
  exists groups,
    names (snd (package (disk_of_tree proj_small) "/proj" 1000)) = concat groups
    /\ Forall2 (fun it g => Forall (fun n => pattern it n = true) g) items groups
    /\ forall done it rest, items = (done ++ it :: rest)%list ->
         fst ((prologue (disk_of_tree proj_small) "/proj" ;;
               for_each done (do_item (disk_of_tree proj_small) "/proj" 1000)) boot)
         <> Ok tt ->
         nth (List.length done) groups [] = [].
Proof. exact (members_grouped_in_list_order (disk_of_tree proj_small) "/proj" 1000). Defined.
